(** * The communication matrix: model of package [types]

    A shallow embedding of the matrix model of the commatrix repository
    (package [types]): the flow record [ComDetails], its identity test, the
    in-place normalisation of a matrix, the combination and the diff of two
    matrices, and the exporters.

    Conventions of the embedding.
    - Go strings are byte strings: [string]; [+:+] is concatenation.
    - Go [int] is [Z]; the code does no arithmetic on ports, it only
      compares and prints them.
    - Go maps with string keys are [gmap string _].
    - A function returning [(T, error)] returns [result T].
    - [fmt.Sprintf] is written out as the concatenation it performs. *)

From Stdlib Require Import ZArith Ascii String List Sorted Permutation.
From Stdlib Require Import DecimalString DecimalZ DecimalPos.
From stdpp Require Import base decidable option list sorting strings gmap.

Local Open Scope Z_scope.

(** ** Formatting verbs of package [fmt] *)

(** [%d] (and [fmt.Sprint]) on an [int]: decimal digits, with a leading
    minus sign for negative numbers. *)
Definition Sprint_int (n : Z) : string :=
  NilZero.string_of_int (Z.to_int n).

(** [%v] on a [bool]. *)
Definition Sprint_bool (b : bool) : string :=
  if b then "true" else "false".

(** [strings.Join]. *)
Fixpoint Join (elems : list string) (sep : string) : string :=
  match elems with
  | [] => EmptyString
  | [s] => s
  | s :: rest => s +:+ sep +:+ Join rest sep
  end.

(** [strings.Contains]: [substr] occurs in [s]. *)
Fixpoint strings_Contains (s substr : string) : bool :=
  String.prefix substr s
  || match s with
     | EmptyString => false
     | String _ s' => strings_Contains s' substr
     end.

(** Results of fallible functions: the value, or the error message. *)
Inductive result (T : Type) : Type :=
| Ok (v : T)
| Err (msg : string).
Arguments Ok {T} v.
Arguments Err {T} msg.

(** ** Flow records *)

Record ComDetails : Type := mkComDetails {
  Direction : string;
  Protocol : string;
  Port : Z;
  Namespace : string;
  Service : string;
  Pod : string;
  Container : string;
  NodeRole : string;
  Optional : bool
}.

#[global] Instance ComDetails_eq_dec : EqDecision ComDetails.
Proof. solve_decision. Defined.

Record ComMatrix : Type := mkComMatrix {
  Matrix : list ComDetails
}.

Definition FormatJSON : string := "json".
Definition FormatYAML : string := "yaml".
Definition FormatCSV : string := "csv".
Definition FormatNFT : string := "nft".

(** [ComDetails.String]:
    [Sprintf("%s,%s,%d,%s,%s,%s,%s,%s,%v", ...)]. *)
Definition ComDetails_String (cd : ComDetails) : string :=
  Direction cd +:+ "," +:+ Protocol cd +:+ "," +:+ Sprint_int (Port cd)
  +:+ "," +:+ Namespace cd +:+ "," +:+ Service cd +:+ "," +:+ Pod cd
  +:+ "," +:+ Container cd +:+ "," +:+ NodeRole cd
  +:+ "," +:+ Sprint_bool (Optional cd).

(** The text both [Equals] and [deleteDuplicates] build for a record:
    [Sprintf("%s-%d-%s", NodeRole, Port, Protocol)]. *)
Definition identity_key (cd : ComDetails) : string :=
  NodeRole cd +:+ "-" +:+ Sprint_int (Port cd) +:+ "-" +:+ Protocol cd.

(** [ComDetails.Equals]. *)
Definition Equals (cd other : ComDetails) : bool :=
  let strComDetail1 := identity_key cd in
  let strComDetail2 := identity_key other in
  bool_decide (strComDetail1 = strComDetail2).

(** The identity the specification speaks of: the three fields themselves. *)
Definition identity (cd : ComDetails) : string * Z * string :=
  (NodeRole cd, Port cd, Protocol cd).

(** ** Bytes inside formatted text *)

(** [strings.IndexByte(s, c) >= 0]. *)
Fixpoint has_byte (c : ascii) (s : string) : bool :=
  match s with
  | EmptyString => false
  | String a s' => bool_decide (a = c) || has_byte c s'
  end.

Definition is_digit (a : ascii) : bool :=
  bool_decide (a ∈ ["0"; "1"; "2"; "3"; "4"; "5"; "6"; "7"; "8"; "9"]%char).

Fixpoint all_digits (s : string) : bool :=
  match s with
  | EmptyString => true
  | String a s' => is_digit a && all_digits s'
  end.

(** What the matrix expects of the identity fields of a record: the port is
    not negative and the protocol name (TCP, UDP, ...) has no dash, the
    separator of [identity_key]. *)
Definition plain_identity (cd : ComDetails) : bool :=
  (0 <=? Port cd) && negb (has_byte "-" (Protocol cd)).

(** The text fields that [ComDetails.String] separates by commas have none
    inside. *)
Definition comma_free (cd : ComDetails) : bool :=
  negb (has_byte "," (Direction cd)) && negb (has_byte "," (Protocol cd))
  && negb (has_byte "," (Namespace cd)) && negb (has_byte "," (Service cd))
  && negb (has_byte "," (Pod cd)) && negb (has_byte "," (Container cd))
  && negb (has_byte "," (NodeRole cd)).

(** ** Ordering: packages [cmp] and [slices] *)

(** [cmp.Compare] on strings: byte-wise lexicographic order. *)
Definition cmp_Compare_string (x y : string) : Z :=
  match String.compare x y with
  | Lt => -1
  | Eq => 0
  | Gt => 1
  end.

(** [cmp.Compare] on [int]. *)
Definition cmp_Compare_int (x y : Z) : Z :=
  if x <? y then -1 else if y <? x then 1 else 0.

(** [slices.IsSortedFunc]: no element compares below its predecessor. *)
Fixpoint IsSortedFunc {E : Type} (x : list E) (cmp : E → E → Z) : bool :=
  match x with
  | a :: (b :: _) as rest => negb (cmp b a <? 0) && IsSortedFunc rest cmp
  | _ => true
  end.

(** What [slices.SortFunc] asks of its comparison: a strict weak ordering,
    whose sign is consistent in both directions. *)
Definition strict_weak_ordering {E : Type} (cmp : E → E → Z) : Prop :=
  (∀ a, ¬ cmp a a < 0)
  ∧ (∀ a b c, cmp a b < 0 → cmp b c < 0 → cmp a c < 0)
  ∧ (∀ a b c, cmp a c < 0 → cmp a b < 0 ∨ cmp b c < 0)
  ∧ (∀ a b, 0 < cmp a b ↔ cmp b a < 0).

(** [slices.SortFunc] is library code. Its documentation promises that the
    slice is sorted in ascending order as determined by [cmp], in place (so
    the elements are rearranged, none added or lost), and says that the sort
    is not guaranteed to be stable. The library function is a parameter of
    the model, and this is the contract the proofs may use. *)
Definition SortFunc_type : Type :=
  ∀ E : Type, list E → (E → E → Z) → list E.

Definition SortFunc_contract (SortFunc : SortFunc_type) : Prop :=
  ∀ (E : Type) (x : list E) (cmp : E → E → Z),
    strict_weak_ordering cmp →
    SortFunc E x cmp ≡ₚ x ∧ IsSortedFunc (SortFunc E x cmp) cmp = true.

(** Insertion sort as [slices] runs it on short slices: each element in turn
    sinks to the left while it compares below its left neighbour. [sink]
    takes the sorted prefix from right to left. *)
Fixpoint sink {E : Type} (cmp : E → E → Z) (x : E) (prefix_rev : list E) : list E :=
  match prefix_rev with
  | y :: rest => if cmp x y <? 0 then y :: sink cmp x rest else x :: prefix_rev
  | [] => [x]
  end.

Definition insertionSortCmpFunc : SortFunc_type :=
  λ E data cmp, reverse (fold_left (λ acc x, sink cmp x acc) data []).

(** Another sort within the contract: insertion sort of the slice read from
    its end. *)
Definition insertionSortFromEnd : SortFunc_type :=
  λ E data cmp, insertionSortCmpFunc E (reverse data) cmp.

(** ** [slices.SortFunc] as the library runs it

    The functions of [zsortanyfunc.go] that [slices.SortFunc] runs, on the
    slice [data] as a list, with the indices of the library. Insertion sort
    is the version of the library on a range [a, b) of the slice. A loop
    takes a bound on its turns as fuel. Reading or exchanging a cell outside
    the slice panics in Go; the library never does it, and here it leaves
    the list as it is. [breakPatternsCmpFunc], which moves three elements to
    places a pseudo-random generator picks and runs only after an unbalanced
    partition, is a parameter. *)

Inductive sortedHint : Type := unknownHint | increasingHint | decreasingHint.

Section zsortanyfunc.
Context {E : Type}.
Variable cmp : E → E → Z.
Variable breakPatternsCmpFunc : list E → nat → nat → list E.

(** [cmp(data[i], data[j]) < 0]. *)
Definition less_at (data : list E) (i j : nat) : bool :=
  match data !! i, data !! j with
  | Some x, Some y => cmp x y <? 0
  | _, _ => false
  end.

(** [data[i], data[j] = data[j], data[i]]. *)
Definition swap_cells (data : list E) (i j : nat) : list E :=
  match data !! i, data !! j with
  | Some x, Some y => <[i := y]> (<[j := x]> data)
  | _, _ => data
  end.

(** The inner loop of insertion sort:
    [for j := i; j > a && cmp(data[j], data[j-1]) < 0; j--]. *)
Fixpoint insertion_sink (data : list E) (a j : nat) : list E :=
  match j with
  | S j' =>
      if (a <? j)%nat && less_at data j j'
      then insertion_sink (swap_cells data j j') a j'
      else data
  | O => data
  end.

(** [insertionSortCmpFunc(data, a, b, cmp)]. *)
Definition insertionSortCmpFunc_range (data : list E) (a b : nat) : list E :=
  fold_left (λ data i, insertion_sink data a i) (seq (a + 1) (b - (a + 1))) data.

Fixpoint siftDown_loop (fuel : nat) (data : list E) (root hi first : nat) : list E :=
  match fuel with
  | S fuel' =>
      let child := (2 * root + 1)%nat in
      if (hi <=? child)%nat then data
      else
        let child :=
          if (child + 1 <? hi)%nat
             && less_at data (first + child) (first + child + 1)
          then (child + 1)%nat else child in
        if negb (less_at data (first + root) (first + child)) then data
        else siftDown_loop fuel' (swap_cells data (first + root) (first + child))
               child hi first
  | O => data
  end.

(** [siftDownCmpFunc(data, lo, hi, first, cmp)]. *)
Definition siftDownCmpFunc (data : list E) (lo hi first : nat) : list E :=
  siftDown_loop hi data lo hi first.

(** [heapSortCmpFunc(data, a, b, cmp)]. *)
Definition heapSortCmpFunc (data : list E) (a b : nat) : list E :=
  let first := a in
  let lo := 0%nat in
  let hi := (b - a)%nat in
  let data :=
    fold_left (λ data i, siftDownCmpFunc data i hi first)
      (reverse (seq 0 ((hi - 1) / 2 + 1))) data in
  fold_left (λ data i, siftDownCmpFunc (swap_cells data first (first + i)) lo i first)
    (reverse (seq 0 hi)) data.

(** [order2CmpFunc], [medianCmpFunc] and [medianAdjacentCmpFunc]: the
    counter [swaps] is passed through. *)
Definition order2CmpFunc (data : list E) (a b swaps : nat) : nat * nat * nat :=
  if less_at data b a then (b, a, S swaps) else (a, b, swaps).

Definition medianCmpFunc (data : list E) (a b c swaps : nat) : nat * nat :=
  let '(a, b, swaps) := order2CmpFunc data a b swaps in
  let '(b, c, swaps) := order2CmpFunc data b c swaps in
  let '(a, b, swaps) := order2CmpFunc data a b swaps in
  (b, swaps).

Definition medianAdjacentCmpFunc (data : list E) (a swaps : nat) : nat * nat :=
  medianCmpFunc data (a - 1) a (a + 1) swaps.

(** [choosePivotCmpFunc(data, a, b, cmp)]. *)
Definition choosePivotCmpFunc (data : list E) (a b : nat) : nat * sortedHint :=
  let l := (b - a)%nat in
  let i := (a + l / 4 * 1)%nat in
  let j := (a + l / 4 * 2)%nat in
  let k := (a + l / 4 * 3)%nat in
  let '(j, swaps) :=
    if (8 <=? l)%nat then
      let '(i, j, k, swaps) :=
        if (50 <=? l)%nat then
          let '(i, swaps) := medianAdjacentCmpFunc data i 0 in
          let '(j, swaps) := medianAdjacentCmpFunc data j swaps in
          let '(k, swaps) := medianAdjacentCmpFunc data k swaps in
          (i, j, k, swaps)
        else (i, j, k, 0%nat) in
      medianCmpFunc data i j k swaps
    else (j, 0%nat) in
  if (swaps =? 0)%nat then (j, increasingHint)
  else if (swaps =? 4 * 3)%nat then (j, decreasingHint)
  else (j, unknownHint).

Fixpoint reverseRange_loop (fuel : nat) (data : list E) (i j : nat) : list E :=
  match fuel with
  | S fuel' =>
      if (i <? j)%nat then reverseRange_loop fuel' (swap_cells data i j) (S i) (j - 1)
      else data
  | O => data
  end.

(** [reverseRangeCmpFunc(data, a, b, cmp)]. *)
Definition reverseRangeCmpFunc (data : list E) (a b : nat) : list E :=
  reverseRange_loop (b - a) data a (b - 1).

(** The loops [for i <= j && p(i) { i++ }] and [for i <= j && p(j) { j-- }]
    of the two partitions. *)
Fixpoint scan_up (fuel : nat) (p : nat → bool) (i j : nat) : nat :=
  match fuel with
  | S fuel' => if (i <=? j)%nat && p i then scan_up fuel' p (S i) j else i
  | O => i
  end.

Fixpoint scan_down (fuel : nat) (p : nat → bool) (i j : nat) : nat :=
  match fuel with
  | S fuel' => if (i <=? j)%nat && p j then scan_down fuel' p i (j - 1) else j
  | O => j
  end.

(** The [for] loop of [partitionCmpFunc]; it leaves with the slice and [j]. *)
Fixpoint partition_loop (fuel : nat) (data : list E) (a i j : nat) : list E * nat :=
  match fuel with
  | S fuel' =>
      let i := scan_up (length data) (λ i, less_at data i a) i j in
      let j := scan_down (length data) (λ j, negb (less_at data j a)) i j in
      if (j <? i)%nat then (data, j)
      else partition_loop fuel' (swap_cells data i j) a (S i) (j - 1)
  | O => (data, j)
  end.

(** [partitionCmpFunc(data, a, b, pivot, cmp)]: the slice, [newpivot] and
    [alreadyPartitioned]. *)
Definition partitionCmpFunc (data : list E) (a b pivot : nat) : list E * nat * bool :=
  let data := swap_cells data a pivot in
  let i := (a + 1)%nat in
  let j := (b - 1)%nat in
  let i := scan_up (length data) (λ i, less_at data i a) i j in
  let j := scan_down (length data) (λ j, negb (less_at data j a)) i j in
  if (j <? i)%nat then (swap_cells data j a, j, true)
  else
    let data := swap_cells data i j in
    let '(data, j) := partition_loop (length data) data a (S i) (j - 1) in
    (swap_cells data j a, j, false).

Fixpoint partitionEqual_loop (fuel : nat) (data : list E) (a i j : nat)
  : list E * nat :=
  match fuel with
  | S fuel' =>
      let i := scan_up (length data) (λ i, negb (less_at data a i)) i j in
      let j := scan_down (length data) (λ j, less_at data a j) i j in
      if (j <? i)%nat then (data, i)
      else partitionEqual_loop fuel' (swap_cells data i j) a (S i) (j - 1)
  | O => (data, i)
  end.

(** [partitionEqualCmpFunc(data, a, b, pivot, cmp)]: the slice and
    [newpivot]. *)
Definition partitionEqualCmpFunc (data : list E) (a b pivot : nat) : list E * nat :=
  let data := swap_cells data a pivot in
  partitionEqual_loop (length data) data a (a + 1) (b - 1).

(** The loops of [partialInsertionSortCmpFunc]: the scan
    [for i < b && !(cmp(data[i], data[i-1]) < 0) { i++ }], the shift to the
    left [for j := i - 1; j >= 1; j--] and the shift to the right
    [for j := i + 1; j < b; j++]. *)
Fixpoint scan_in_order (fuel : nat) (data : list E) (i b : nat) : nat :=
  match fuel with
  | S fuel' =>
      if (i <? b)%nat && negb (less_at data i (i - 1))
      then scan_in_order fuel' data (S i) b else i
  | O => i
  end.

Fixpoint shift_left (data : list E) (j : nat) : list E :=
  match j with
  | S j' =>
      if negb (less_at data j j') then data
      else shift_left (swap_cells data j j') j'
  | O => data
  end.

Fixpoint shift_right (fuel : nat) (data : list E) (j b : nat) : list E :=
  match fuel with
  | S fuel' =>
      if (j <? b)%nat then
        if negb (less_at data j (j - 1)) then data
        else shift_right fuel' (swap_cells data j (j - 1)) (S j) b
      else data
  | O => data
  end.

Fixpoint partialInsertionSort_steps (steps : nat) (data : list E) (a b i : nat)
  : list E * bool :=
  match steps with
  | S steps' =>
      let i := scan_in_order (length data) data i b in
      if (i =? b)%nat then (data, true)
      else if (b - a <? 50)%nat then (data, false)
      else
        let data := swap_cells data i (i - 1) in
        let data := if (2 <=? i - a)%nat then shift_left data (i - 1) else data in
        let data :=
          if (2 <=? b - i)%nat then shift_right (length data) data (i + 1) b
          else data in
        partialInsertionSort_steps steps' data a b i
  | O => (data, false)
  end.

(** [partialInsertionSortCmpFunc(data, a, b, cmp)]: the slice, and whether
    it is sorted at the end. *)
Definition partialInsertionSortCmpFunc (data : list E) (a b : nat) : list E * bool :=
  partialInsertionSort_steps 5 data a b (a + 1).

(** [pdqsortCmpFunc(data, a, b, limit, cmp)]. One unit of fuel pays for one
    turn of its loop; [wasBalanced] and [wasPartitioned] are its two
    variables, [true] at every call. *)
Fixpoint pdqsort_loop (fuel : nat) (data : list E) (a b limit : nat)
    (wasBalanced wasPartitioned : bool) : list E :=
  match fuel with
  | O => data
  | S fuel' =>
      let length := (b - a)%nat in
      if (length <=? 12)%nat then insertionSortCmpFunc_range data a b
      else if (limit =? 0)%nat then heapSortCmpFunc data a b
      else
        let '(data, limit) :=
          if negb wasBalanced
          then (breakPatternsCmpFunc data a b, (limit - 1)%nat)
          else (data, limit) in
        let '(pivot, hint) := choosePivotCmpFunc data a b in
        let '(data, pivot, hint) :=
          match hint with
          | decreasingHint =>
              (reverseRangeCmpFunc data a b, ((b - 1) - (pivot - a))%nat,
               increasingHint)
          | _ => (data, pivot, hint)
          end in
        let '(data, sorted) :=
          match hint with
          | increasingHint =>
              if wasBalanced && wasPartitioned
              then partialInsertionSortCmpFunc data a b
              else (data, false)
          | _ => (data, false)
          end in
        if sorted then data
        else if (0 <? a)%nat && negb (less_at data (a - 1) pivot) then
          let '(data, mid) := partitionEqualCmpFunc data a b pivot in
          pdqsort_loop fuel' data mid b limit wasBalanced wasPartitioned
        else
          let '(data, mid, alreadyPartitioned) := partitionCmpFunc data a b pivot in
          let leftLen := (mid - a)%nat in
          let rightLen := (b - mid)%nat in
          let balanceThreshold := (length / 8)%nat in
          if (leftLen <? rightLen)%nat then
            let data := pdqsort_loop fuel' data a mid limit true true in
            pdqsort_loop fuel' data (mid + 1) b limit
              (balanceThreshold <=? leftLen)%nat alreadyPartitioned
          else
            let data := pdqsort_loop fuel' data (mid + 1) b limit true true in
            pdqsort_loop fuel' data a mid limit
              (balanceThreshold <=? rightLen)%nat alreadyPartitioned
  end.

Definition pdqsortCmpFunc (data : list E) (a b limit : nat) : list E :=
  pdqsort_loop (S (b - a)) data a b limit true true.

End zsortanyfunc.

(** [bits.Len]: the number of bits of [n]. *)
Definition bits_Len (n : nat) : nat :=
  if (n =? 0)%nat then 0%nat else S (Nat.log2 n).

(** [slices.SortFunc(x, cmp)]:
    [pdqsortCmpFunc(x, 0, n, bits.Len(uint(n)), cmp)]. *)
Definition slices_SortFunc
    (breakPatternsCmpFunc : ∀ E : Type, (E → E → Z) → list E → nat → nat → list E)
  : SortFunc_type :=
  λ E x cmp,
    let n := length x in
    pdqsortCmpFunc cmp (breakPatternsCmpFunc E cmp) x 0 n (bits_Len n).

(** ** Matrix operations *)

(** [ComMatrix.Contains]. *)
Definition Contains (m : ComMatrix) (cd : ComDetails) : bool :=
  (fix loop (l : list ComDetails) : bool :=
     match l with
     | [] => false
     | cd1 :: rest => if Equals cd1 cd then true else loop rest
     end) (Matrix m).

(** One turn of the loop of [deleteDuplicates], on the map [allKeys] and the
    slice [res]. *)
Definition deleteDuplicates_step (st : gmap string bool * list ComDetails)
    (item : ComDetails) : gmap string bool * list ComDetails :=
  let str := identity_key item in
  match st.1 !! str with
  | Some _ => st
  | None => (<[str := true]> st.1, st.2 ++ [item])
  end.

(** [ComMatrix.deleteDuplicates]: the matrix [m] holds afterwards. *)
Definition deleteDuplicates (m : ComMatrix) : ComMatrix :=
  let res := (fold_left deleteDuplicates_step (Matrix m) (∅, [])).2 in
  {| Matrix := res |}.

(** The comparison [ComMatrix.sort] hands to [slices.SortFunc]. *)
Definition sort_cmp (a b : ComDetails) : Z :=
  let res := cmp_Compare_string (NodeRole a) (NodeRole b) in
  if negb (res =? 0) then res
  else
    let res := cmp_Compare_string (Protocol a) (Protocol b) in
    if negb (res =? 0) then res
    else cmp_Compare_int (Port a) (Port b).

(** [ComMatrix.sort]: the matrix [m] holds afterwards. *)
Definition sort (SortFunc : SortFunc_type) (m : ComMatrix) : ComMatrix :=
  {| Matrix := SortFunc ComDetails (Matrix m) sort_cmp |}.

(** [ComMatrix.CleanComDetails]: the matrix [m] holds afterwards. *)
Definition CleanComDetails (SortFunc : SortFunc_type) (m : ComMatrix) : ComMatrix :=
  sort SortFunc (deleteDuplicates m).

(** [append] on the slice [combine] grows. The slice starts as a copy of the
    header of [m.Matrix], so it lives in the backing array of [m] as long as
    that array has unused cells: [Some r] says it still does, with [r] cells
    left; [None] says [append] had to move it to an array of its own. *)
Definition append_in_place (s : list ComDetails * option nat) (cd : ComDetails)
  : list ComDetails * option nat :=
  (s.1 ++ [cd], match s.2 with
                | Some (S r) => Some r
                | _ => None
                end).

(** One turn of the loop of [combine]: a record of [other] that [m] does not
    contain is appended. *)
Definition combine_step (m : ComMatrix) (s : list ComDetails * option nat)
    (cd : ComDetails) : list ComDetails * option nat :=
  if negb (Contains m cd) then append_in_place s cd else s.

(** [ComMatrix.combine]. [room] is [cap(m.Matrix) - len(m.Matrix)] at the
    call; the backing arrays of [m] and [other] are distinct. The result is
    the combined matrix together with the matrix [m] holds afterwards:
    [slices.SortFunc] sorts the combined slice in place, and as long as that
    slice lives in the array of [m], [m.Matrix] shows the first [len] cells
    of the sorted array. *)
Definition combine (SortFunc : SortFunc_type) (room : nat) (m other : ComMatrix)
  : ComMatrix * ComMatrix :=
  let combinedComDetails :=
    fold_left (combine_step m) (Matrix other) (Matrix m, Some room) in
  let combinedComMatrix := sort SortFunc {| Matrix := combinedComDetails.1 |} in
  (combinedComMatrix,
   match combinedComDetails.2 with
   | Some _ => {| Matrix := take (length (Matrix m)) (Matrix combinedComMatrix) |}
   | None => m
   end).

(** The two loops of [markDiffBetweenMatrices], one turn each. *)
Definition mark_step_m (other : ComMatrix) (mapComDetailToSign : gmap string Z)
    (cd : ComDetails) : gmap string Z :=
  if Contains other cd then <[ComDetails_String cd := 0]> mapComDetailToSign
  else <[ComDetails_String cd := 1]> mapComDetailToSign.

Definition mark_step_other (m : ComMatrix) (mapComDetailToSign : gmap string Z)
    (cd : ComDetails) : gmap string Z :=
  if bool_decide (Service cd = "rpc.statd") then mapComDetailToSign
  else if negb (Contains m cd) then <[ComDetails_String cd := -1]> mapComDetailToSign
  else mapComDetailToSign.

(** [ComMatrix.markDiffBetweenMatrices]. *)
Definition markDiffBetweenMatrices (m other : ComMatrix) : gmap string Z :=
  fold_left (mark_step_other m) (Matrix other)
    (fold_left (mark_step_m other) (Matrix m) ∅).

(** The struct tags of [ComDetails], field by field. *)
Definition ComDetails_tags : list (string * list (string * string)) :=
  [ ("Direction", [("json", "direction"); ("yaml", "direction"); ("csv", "Direction")]);
    ("Protocol", [("json", "protocol"); ("yaml", "protocol"); ("csv", "Protocol")]);
    ("Port", [("json", "port"); ("yaml", "port"); ("csv", "Port")]);
    ("Namespace", [("json", "namespace"); ("yaml", "namespace"); ("csv", "Namespace")]);
    ("Service", [("json", "service"); ("yaml", "service"); ("csv", "Service")]);
    ("Pod", [("json", "pod"); ("yaml", "pod"); ("csv", "Pod")]);
    ("Container", [("json", "container"); ("yaml", "container"); ("csv", "Container")]);
    ("NodeRole", [("json", "nodeRole"); ("yaml", "nodeRole"); ("csv", "Node Role")]);
    ("Optional", [("json", "optional"); ("yaml", "optional"); ("csv", "Optional")]) ].

(** [reflect.StructTag.Get]: the value of the key, empty when it is absent. *)
Definition Tag_Get (tag : list (string * string)) (key : string) : string :=
  match list_find (λ kv, kv.1 = key) tag with
  | Some (_, kv) => kv.2
  | None => EmptyString
  end.

(** [getComMatrixHeadersByFormat]. The error text names the field; Go prints
    the whole field descriptor there. *)
Definition getComMatrixHeadersByFormat (format : string) : result string :=
  (fix loop (fields : list (string * list (string * string)))
            (tagsList : list string) : result string :=
     match fields with
     | [] => Ok (Join tagsList ",")
     | field :: rest =>
         let tag := Tag_Get field.2 format in
         if bool_decide (tag = EmptyString)
         then Err ("field " +:+ field.1 +:+ " has no tag of format " +:+ format)
         else loop rest (tagsList ++ [tag])
     end) ComDetails_tags [].

Definition newline : string := String "010" EmptyString.

(** The sign [GenerateMatrixDiff] reads for a record: a key the map lacks
    reads as zero. *)
Definition sign_of (mapComDetailToSign : gmap string Z) (cd : ComDetails) : Z :=
  default 0 (mapComDetailToSign !! ComDetails_String cd).

(** The [switch] of [GenerateMatrixDiff]: the text one record adds. *)
Definition diff_line (mapComDetailToSign : gmap string Z) (cd : ComDetails) : string :=
  match sign_of mapComDetailToSign cd with
  | 1 => "+ " +:+ ComDetails_String cd +:+ newline
  | -1 => "- " +:+ ComDetails_String cd +:+ newline
  | 0 => ComDetails_String cd +:+ newline
  | _ => EmptyString
  end.

(** [ComMatrix.GenerateMatrixDiff]. [room] is the unused capacity of
    [m.Matrix] at the call, as for [combine]; the marks are computed on [m]
    as [combine] leaves it. *)
Definition GenerateMatrixDiff (SortFunc : SortFunc_type) (room : nat)
    (m other : ComMatrix) : result string :=
  let combined := combine SortFunc room m other in
  let combinedComMatrix := combined.1 in
  let mapComDetailToSign := markDiffBetweenMatrices combined.2 other in
  match getComMatrixHeadersByFormat FormatCSV with
  | Err err => Err ("error getting commatrix CSV tags: " +:+ err)
  | Ok colNames =>
      Ok (fold_left (λ diff cd, diff +:+ diff_line mapComDetailToSign cd)
            (Matrix combinedComMatrix) (colNames +:+ newline))
  end.

(** ** Exporters *)

Definition tab : string := String "009" EmptyString.
Definition dquote : string := String "034" EmptyString.

Definition indent (n : nat) (line : string) : string :=
  Nat.iter n (String.append tab) line.

(** The rule text of [ToNFTables], with the two port lists in place of the
    two [%s]. *)
Definition nft_rules (tcpPortsStr udpPortsStr : string) : string :=
  Join [
    "#!/usr/sbin/nft -f";
    EmptyString;
    indent 1 "table inet openshift_filter {";
    indent 2 "chain OPENSHIFT {";
    indent 3 "type filter hook input priority 1; policy accept;";
    EmptyString;
    indent 3 "# Allow loopback traffic";
    indent 3 "iif lo accept";
    indent 1 EmptyString;
    indent 3 "# Allow established and related traffic";
    indent 3 "ct state established,related accept";
    indent 1 EmptyString;
    indent 3 "# Allow ICMP on ipv4";
    indent 3 "ip protocol icmp accept";
    indent 3 "# Allow ICMP on ipv6";
    indent 3 "ip6 nexthdr ipv6-icmp accept";
    EmptyString;
    indent 3 "# Allow specific TCP and UDP ports";
    indent 3 ("tcp dport  { " +:+ tcpPortsStr +:+ " } accept");
    indent 3 ("udp dport { " +:+ udpPortsStr +:+ " } accept");
    EmptyString;
    indent 3 "# Logging and default drop";
    indent 3 ("log prefix " +:+ dquote +:+ "firewall " +:+ dquote +:+ " drop");
    indent 2 "}";
    indent 1 "}" ] newline.

(** One turn of the loop of [ToNFTables], on the slices [tcpPorts] and
    [udpPorts]. *)
Definition ToNFTables_step (ports : list string * list string)
    (line : ComDetails) : list string * list string :=
  let '(tcpPorts, udpPorts) := ports in
  if bool_decide (Protocol line = "TCP")
  then (tcpPorts ++ [Sprint_int (Port line)], udpPorts)
  else if bool_decide (Protocol line = "UDP")
  then (tcpPorts, udpPorts ++ [Sprint_int (Port line)])
  else (tcpPorts, udpPorts).

(** [ComMatrix.ToNFTables]. *)
Definition ToNFTables (m : ComMatrix) : result string :=
  let '(tcpPorts, udpPorts) := fold_left ToNFTables_step (Matrix m) ([], []) in
  let tcpPortsStr := Join tcpPorts ", " in
  let udpPortsStr := Join udpPorts ", " in
  Ok (nft_rules tcpPortsStr udpPortsStr).

(** The encoders of other packages that the exporters call:
    [json.MarshalIndent] (with the indentation of [ToJSON]),
    [gocsv.MarshalCSV] (the bytes it writes) and [yaml.Marshal]. *)
Record Encoders : Type := mkEncoders {
  json_MarshalIndent : list ComDetails → result string;
  gocsv_MarshalCSV : list ComDetails → result string;
  yaml_Marshal : ComMatrix → result string
}.

Definition ToJSON (enc : Encoders) (m : ComMatrix) : result string :=
  match json_MarshalIndent enc (Matrix m) with
  | Err err => Err err
  | Ok out => Ok out
  end.

Definition ToCSV (enc : Encoders) (m : ComMatrix) : result string :=
  match gocsv_MarshalCSV enc (Matrix m) with
  | Err err => Err err
  | Ok out => Ok out
  end.

Definition ToYAML (enc : Encoders) (m : ComMatrix) : result string :=
  match yaml_Marshal enc m with
  | Err err => Err err
  | Ok out => Ok out
  end.

(** [ComMatrix.print]. *)
Definition print (enc : Encoders) (m : ComMatrix) (format : string) : result string :=
  if bool_decide (format = FormatJSON) then ToJSON enc m
  else if bool_decide (format = FormatCSV) then ToCSV enc m
  else if bool_decide (format = FormatYAML) then ToYAML enc m
  else if bool_decide (format = FormatNFT) then ToNFTables m
  else Err ("invalid format: " +:+ format
            +:+ ". Please specify json, csv, yaml, or nft").

(** ** The order and the notions the properties are stated with *)

(** Byte-wise lexicographic order on strings, written out. *)
Inductive bytes_lt : string → string → Prop :=
| bytes_lt_nil (a : ascii) (s : string) :
    bytes_lt EmptyString (String a s)
| bytes_lt_head (a b : ascii) (s t : string) :
    (N_of_ascii a < N_of_ascii b)%N → bytes_lt (String a s) (String b t)
| bytes_lt_tail (a : ascii) (s t : string) :
    bytes_lt s t → bytes_lt (String a s) (String a t).

(** [a] comes no later than [b] in the order by (nodeRole, protocol, port):
    lexicographic on the first two, numeric on the third. *)
Definition key_le (a b : ComDetails) : Prop :=
  bytes_lt (NodeRole a) (NodeRole b)
  ∨ (NodeRole a = NodeRole b
     ∧ (bytes_lt (Protocol a) (Protocol b)
        ∨ (Protocol a = Protocol b ∧ Port a ≤ Port b))).

(** The records [deleteDuplicates] keeps of [l] when the keys of [seen] are
    taken already: the first record of each further key. *)
Fixpoint first_of_each_key (seen : gmap string bool) (l : list ComDetails)
  : list ComDetails :=
  match l with
  | [] => []
  | item :: rest =>
      match seen !! identity_key item with
      | Some _ => first_of_each_key seen rest
      | None => item :: first_of_each_key (<[identity_key item := true]> seen) rest
      end
  end.

(** The records of [l] with the identity of [cd], as [l] has them. *)
Definition same_identity (cd : ComDetails) (l : list ComDetails) : list ComDetails :=
  filter (λ x, identity x = identity cd) l.

(** The records of [l] that tie with [cd] in the order, as [l] has them. *)
Definition ties_of (cd : ComDetails) (l : list ComDetails) : list ComDetails :=
  filter (λ x, sort_cmp x cd = 0) l.

(** A sort is stable when every group of tied records keeps its order. *)
Definition keeps_ties (before after : list ComDetails) : Prop :=
  ∀ cd, ties_of cd after = ties_of cd before.

(** A comparison in the manner of [cmp.Compare] on a totally ordered type. *)
Record total_cmp {A : Type} (c : A → A → Z) : Prop := mk_total_cmp {
  tc_eq : ∀ a b, c a b = 0 ↔ a = b;
  tc_flip : ∀ a b, 0 < c a b ↔ c b a < 0;
  tc_trans : ∀ a b d, c a b < 0 → c b d < 0 → c a d < 0
}.

(** Deciding by a first comparison, and by a second one on a tie. *)
Definition lex_cmp {A B : Type} (c1 : A → A → Z) (c2 : B → B → Z)
    (x y : A * B) : Z :=
  if negb (c1 x.1 y.1 =? 0) then c1 x.1 y.1 else c2 x.2 y.2.

Definition sort_key (cd : ComDetails) : string * (string * Z) :=
  (NodeRole cd, (Protocol cd, Port cd)).

(** The records of [other] that [combine] appends to those of [m]. *)
Definition fresh_records (m other : ComMatrix) : list ComDetails :=
  filter (λ cd, Contains m cd = false) (Matrix other).

(** What is left of the backing array of the receiver after [k] appends:
    [Some] of the unused cells while they suffice, [None] once they do not. *)
Definition room_after (shared : option nat) (k : nat) : option nat :=
  match shared with
  | Some r => if decide (k ≤ r)%nat then Some (r - k)%nat else None
  | None => None
  end.

(** The identity of [cd] appears in [m]. *)
Definition has_identity (m : ComMatrix) (cd : ComDetails) : Prop :=
  ∃ x, x ∈ Matrix m ∧ identity x = identity cd.

(** No two records of [l] share an identity. *)
Definition identity_free_of_duplicates (l : list ComDetails) : Prop :=
  NoDup (identity <$> l).

(** The guarantee the specification gives for the matrix [combine] returns:
    it has every record of [m] and every record of [other] whose identity
    [m] lacks, it is in order, and no identity is in it twice. *)
Definition combine_claim (SortFunc : SortFunc_type) (room : nat)
    (m other : ComMatrix) : Prop :=
  let combined := Matrix (combine SortFunc room m other).1 in
  (∀ cd, cd ∈ Matrix m → cd ∈ combined)
  ∧ (∀ cd, cd ∈ Matrix other → ¬ has_identity m cd → cd ∈ combined)
  ∧ Sorted key_le combined
  ∧ identity_free_of_duplicates combined.

(** The marks of the diff report. *)
Inductive mark : Type := Plus | Minus | Unmarked.

Definition mark_text (mk : mark) : string :=
  match mk with
  | Plus => "+ "
  | Minus => "- "
  | Unmarked => EmptyString
  end.

(** The mark a sign stands for; other numbers stand for none. *)
Definition mark_of_sign (sign : Z) : option mark :=
  match sign with
  | 1 => Some Plus
  | -1 => Some Minus
  | 0 => Some Unmarked
  | _ => None
  end.

(** The map of signs [GenerateMatrixDiff] works with. *)
Definition diff_signs (SortFunc : SortFunc_type) (room : nat)
    (m other : ComMatrix) : gmap string Z :=
  markDiffBetweenMatrices (combine SortFunc room m other).2 other.

(** The mark the report gives the record [cd]. *)
Definition diff_mark (SortFunc : SortFunc_type) (room : nat)
    (m other : ComMatrix) (cd : ComDetails) : option mark :=
  mark_of_sign (sign_of (diff_signs SortFunc room m other) cd).


(** The line the report has for the record [cd]: its text after its mark. *)
Definition report_line (SortFunc : SortFunc_type) (room : nat)
    (m other : ComMatrix) (cd : ComDetails) : string :=
  match diff_mark SortFunc room m other cd with
  | Some mk => mark_text mk +:+ ComDetails_String cd +:+ newline
  | None => EmptyString
  end.

(** The header line of the report. *)
Definition report_header : string :=
  "Direction,Protocol,Port,Namespace,Service,Pod,Container,Node Role,Optional"
  +:+ newline.


(** The format tags [print] knows, and the tags the specification lists. *)
Definition supported_formats : list string :=
  [FormatCSV; FormatJSON; FormatYAML; FormatNFT].

Definition listed_formats : list string :=
  ["csv"; "json"; "yaml"; "nft-firewall"].

(** Export succeeds only for the tags of [formats] and fails with an error
    for every other tag. *)
Definition export_closed_over (formats : list string) : Prop :=
  ∀ (enc : Encoders) (m : ComMatrix) (format : string),
    (∀ out, print enc m format = Ok out → format ∈ formats)
    ∧ (format ∉ formats → ∃ msg, print enc m format = Err msg).

(** The ports, printed, of the records of [l] whose protocol is exactly
    [protocol], in the order of [l]. *)
Definition ports_of (protocol : string) (l : list ComDetails) : list string :=
  (λ line, Sprint_int (Port line)) <$> filter (λ line, Protocol line = protocol) l.

(** ** Sample records *)

Definition flow (role protocol : string) (port : Z) (service : string) : ComDetails :=
  {| Direction := "Ingress"; Protocol := protocol; Port := port;
     Namespace := "ns"; Service := service; Pod := "pod";
     Container := "ctr"; NodeRole := role; Optional := false |}.

Definition cd_infra1 : ComDetails := flow "infra-1" "TCP" 80 "web".
Definition cd_infra : ComDetails := flow "infra" "80-TCP" 1 "web".
Definition cd_sshd : ComDetails := flow "master" "TCP" 22 "sshd".
Definition cd_ssh_proxy : ComDetails := flow "master" "TCP" 22 "ssh-proxy".
Definition cd_api : ComDetails := flow "master" "TCP" 6443 "kube-apiserver".
Definition cd_statd : ComDetails := flow "master" "TCP" 40000 "rpc.statd".
Definition cd_http : ComDetails := flow "master" "TCP" 80 "http".
Definition cd_dns : ComDetails := flow "master" "UDP" 53 "dns".
Definition cd_lowercase : ComDetails := flow "master" "tcp" 8080 "proxy".

(** Twelve records in order and a thirteenth, appended, with the key of the
    first. *)
Definition thirteen_records : ComMatrix :=
  {| Matrix := [ cd_sshd;
                 flow "master" "TCP" 80 "http";
                 flow "master" "TCP" 443 "https";
                 flow "master" "TCP" 2379 "etcd";
                 flow "master" "TCP" 2380 "etcd-peer";
                 flow "master" "TCP" 6443 "kube-apiserver";
                 flow "master" "TCP" 8080 "web";
                 flow "master" "TCP" 9090 "prometheus";
                 flow "master" "TCP" 9100 "node-exporter";
                 flow "master" "TCP" 10250 "kubelet";
                 flow "master" "TCP" 10257 "kube-controller-manager";
                 flow "master" "TCP" 10259 "kube-scheduler";
                 cd_ssh_proxy ] |}.

(** Two records of different identities that [ComDetails.String] prints
    alike: the commas inside the fields read as separators. *)
Definition cd_statd_comma : ComDetails :=
  {| Direction := "Ingress"; Protocol := "TCP"; Port := 40000;
     Namespace := "ns"; Service := "rpc.statd"; Pod := "p";
     Container := "c"; NodeRole := "x,master"; Optional := false |}.
Definition cd_comma_twin : ComDetails :=
  {| Direction := "Ingress"; Protocol := "TCP"; Port := 40000;
     Namespace := "ns,rpc.statd"; Service := "p"; Pod := "c";
     Container := "x"; NodeRole := "master"; Optional := false |}.

(** Encoders that write nothing, for running [print]. *)
Definition silent_encoders : Encoders :=
  {| json_MarshalIndent := λ _, Ok EmptyString;
     gocsv_MarshalCSV := λ _, Ok EmptyString;
     yaml_Marshal := λ _, Ok EmptyString |}.

(** ** Further operations of package [types] *)

(** The constants of [Deployment]. *)
Definition SNO : Z := 0.
Definition MNO : Z := 1.

(** [GetDeployment]: the value and the error, [None] for [nil]. *)
Definition GetDeployment (deploymentStr : string) : Z * option string :=
  if bool_decide (deploymentStr = "mno") then (MNO, None)
  else if bool_decide (deploymentStr = "sno") then (SNO, None)
  else (-1, Some ("invalid deployment type: " +:+ deploymentStr)).

(** [ComMatrix.String]: the text of every record, each followed by a line
    feed. *)
Definition ComMatrix_String (m : ComMatrix) : string :=
  fold_left (λ result details, result +:+ (ComDetails_String details +:+ newline))
    (Matrix m) EmptyString.

(** The inner loop of [Diff]: [cd1] equals some record of [other]. *)
Definition Diff_found (other : ComMatrix) (cd1 : ComDetails) : bool :=
  (fix loop (l : list ComDetails) : bool :=
     match l with
     | [] => false
     | cd2 :: rest => if Equals cd1 cd2 then true else loop rest
     end) (Matrix other).

(** [ComMatrix.Diff]. *)
Definition Diff (m other : ComMatrix) : ComMatrix :=
  let step (diff : list ComDetails) (cd1 : ComDetails) :=
    if negb (Diff_found other cd1) then diff ++ [cd1] else diff in
  {| Matrix := fold_left step (Matrix m) [] |}.

(** One turn of the loop of [SeparateMatrixByRole], on the two matrices. *)
Definition SeparateMatrixByRole_step (st : ComMatrix * ComMatrix)
    (entry : ComDetails) : ComMatrix * ComMatrix :=
  if bool_decide (NodeRole entry = "master")
  then ({| Matrix := Matrix st.1 ++ [entry] |}, st.2)
  else if bool_decide (NodeRole entry = "worker")
  then (st.1, {| Matrix := Matrix st.2 ++ [entry] |})
  else st.

(** [ComMatrix.SeparateMatrixByRole]: the master matrix and the worker
    matrix. *)
Definition SeparateMatrixByRole (m : ComMatrix) : ComMatrix * ComMatrix :=
  fold_left SeparateMatrixByRole_step (Matrix m)
    ({| Matrix := [] |}, {| Matrix := [] |}).

(** The one method of [utils.UtilsInterface] the package calls. The helper
    works on files, which the model keeps in a state of type [FS]; the
    method returns its error ([None] for [nil]) and the state it leaves. *)
Record UtilsInterface (FS : Type) : Type := mkUtils {
  WriteFile : string → string → FS → option string * FS
}.
Arguments WriteFile {FS} _ _ _ _.

(** [ComMatrix.writeMatrixToFile]. [filepath_Join] is the library function
    [filepath.Join]. *)
Definition writeMatrixToFile {FS : Type} (filepath_Join : string → string → string)
    (utilsHelpers : UtilsInterface FS) (enc : Encoders) (m : ComMatrix)
    (fileName format destDir : string) (fs : FS) : option string * FS :=
  match print enc m format with
  | Err err => (Some err, fs)
  | Ok res =>
      let comMatrixFileName :=
        filepath_Join destDir (fileName +:+ "." +:+ format) in
      WriteFile utilsHelpers comMatrixFileName res fs
  end.

(** [ComMatrix.WriteMatrixToFileByType]. *)
Definition WriteMatrixToFileByType {FS : Type}
    (filepath_Join : string → string → string)
    (utilsHelpers : UtilsInterface FS) (enc : Encoders) (m : ComMatrix)
    (fileNamePrefix format : string) (deployment : Z) (destDir : string)
    (fs : FS) : option string * FS :=
  if bool_decide (format = FormatNFT) then
    let '(masterMatrix, workerMatrix) := SeparateMatrixByRole m in
    match writeMatrixToFile filepath_Join utilsHelpers enc masterMatrix
            (fileNamePrefix +:+ "-master") format destDir fs with
    | (Some err, fs1) => (Some err, fs1)
    | (None, fs1) =>
        if bool_decide (deployment = MNO) then
          match writeMatrixToFile filepath_Join utilsHelpers enc workerMatrix
                  (fileNamePrefix +:+ "-worker") format destDir fs1 with
          | (Some err, fs2) => (Some err, fs2)
          | (None, fs2) => (None, fs2)
          end
        else (None, fs1)
    end
  else
    match writeMatrixToFile filepath_Join utilsHelpers enc m
            fileNamePrefix format destDir fs with
    | (Some err, fs1) => (Some err, fs1)
    | (None, fs1) => (None, fs1)
    end.

(** [strings.HasPrefix] and [strings.TrimPrefix]. *)
Definition strings_HasPrefix (s prefix : string) : bool :=
  String.prefix prefix s.

Fixpoint string_drop (n : nat) (s : string) : string :=
  match n, s with
  | S n', String _ s' => string_drop n' s'
  | _, _ => s
  end.

Definition strings_TrimPrefix (s prefix : string) : string :=
  if strings_HasPrefix s prefix then string_drop (String.length prefix) s else s.

(** What [GetNodeRole] reads of a [corev1.Node]. *)
Record Node : Type := mkNode {
  Name : string;
  Labels : gmap string string
}.

(** [GetNodeRole]. [RoleLabel] is the constant [consts.RoleLabel]. Go does
    not fix the order in which [range] visits a map: [visited] is the order
    in which the loop of this call comes upon the labels. *)
Definition GetNodeRole (RoleLabel : string) (visited : list string) (node : Node)
  : result string :=
  if bool_decide (is_Some (Labels node !! (RoleLabel +:+ "master")))
  then Ok "master"
  else if bool_decide (is_Some (Labels node !! (RoleLabel +:+ "control-plane")))
  then Ok "master"
  else if bool_decide (is_Some (Labels node !! (RoleLabel +:+ "worker")))
  then Ok "worker"
  else
    (fix loop (l : list string) : result string :=
       match l with
       | [] => Err ("unable to determine role for node " +:+ Name node)
       | label :: rest =>
           if strings_HasPrefix label RoleLabel
           then Ok (strings_TrimPrefix label RoleLabel)
           else loop rest
       end) visited.

(** The labels of a node as a [range] loop may visit them: each once, in
    any order. *)
Definition visits (node : Node) (visited : list string) : Prop :=
  visited ≡ₚ (map_to_list (Labels node)).*1.

(** A helper that keeps a log of the files it is asked to write, and never
    fails. *)
Definition logging_utils : UtilsInterface (list (string * string)) :=
  {| WriteFile := λ name data log, (None, log ++ [(name, data)]) |}.

(** A stand-in for [filepath.Join]. *)
Definition slash_join (dir name : string) : string := dir +:+ "/" +:+ name.

(** * Verification *)

(** ** Formatted text *)

(** A text is cut in one way only at the first occurrence of a separator. *)
Lemma split_at_sep (c : ascii) (u v p q : string) :
  has_byte c u = false → has_byte c v = false →
  u +:+ String c p = v +:+ String c q → u = v ∧ p = q.
Proof.
  revert v. induction u as [|a u IH]; intros [|b v] Hu Hv Heq; simpl in *.
  - by inversion Heq.
  - inversion Heq; subst. rewrite bool_decide_eq_true_2 in Hv; done.
  - inversion Heq; subst. rewrite bool_decide_eq_true_2 in Hu; done.
  - apply orb_false_iff in Hu as [_ Hu]. apply orb_false_iff in Hv as [_ Hv].
    inversion Heq; subst. destruct (IH v Hu Hv) as [-> ->]; done.
Qed.

Lemma string_app_assoc (u v w : string) : (u +:+ v) +:+ w = u +:+ (v +:+ w).
Proof.
  induction u as [|a u IH]; [done|].
  change (String a ((u +:+ v) +:+ w) = String a (u +:+ (v +:+ w))). by rewrite IH.
Qed.

Lemma has_byte_app_sep (c : ascii) (u p : string) :
  has_byte c (u +:+ String c p) = true.
Proof.
  induction u as [|a u IH]; simpl.
  - by rewrite bool_decide_eq_true_2.
  - rewrite IH. apply orb_true_r.
Qed.

(** And in one way only at the last occurrence. *)
Lemma split_at_last_sep (c : ascii) (u v p q : string) :
  has_byte c p = false → has_byte c q = false →
  u +:+ String c p = v +:+ String c q → u = v ∧ p = q.
Proof.
  intros Hp Hq. revert v. induction u as [|a u IH]; intros [|b v] Heq; simpl in *.
  - by inversion Heq.
  - inversion Heq; subst. by rewrite has_byte_app_sep in Hp.
  - inversion Heq; subst. by rewrite has_byte_app_sep in Hq.
  - inversion Heq; subst. destruct (IH v) as [-> ->]; done.
Qed.

Lemma all_digits_no_byte (c : ascii) (s : string) :
  is_digit c = false → all_digits s = true → has_byte c s = false.
Proof.
  intros Hc. induction s as [|a s IH]; simpl; [done|].
  intros [Ha Hs]%andb_true_iff. rewrite (IH Hs), orb_false_r.
  apply bool_decide_eq_false. intros ->. congruence.
Qed.

Lemma all_digits_string_of_uint (d : Decimal.uint) :
  all_digits (NilEmpty.string_of_uint d) = true.
Proof. induction d; simpl; auto. Qed.

Lemma all_digits_pos (p : positive) :
  all_digits (NilZero.string_of_uint (Pos.to_uint p)) = true.
Proof.
  pose proof (all_digits_string_of_uint (Pos.to_uint p)) as Hd.
  unfold NilZero.string_of_uint. by destruct (Pos.to_uint p).
Qed.

(** What [%d] prints: digits, after a minus sign for a negative number. *)
Lemma Sprint_int_digits (n : Z) : 0 ≤ n → all_digits (Sprint_int n) = true.
Proof.
  destruct n as [|p|p]; intros Hn; [done| |lia]. apply all_digits_pos.
Qed.

Lemma Sprint_int_negative (n : Z) :
  n < 0 → ∃ s, Sprint_int n = String "-" s ∧ all_digits s = true.
Proof.
  destruct n as [|p|p]; intros Hn; [lia|lia|].
  eexists. split; [reflexivity|]. apply all_digits_pos.
Qed.

Lemma Sprint_int_no_comma (n : Z) : has_byte "," (Sprint_int n) = false.
Proof.
  destruct (Z.le_gt_cases 0 n) as [Hn|Hn].
  - by apply all_digits_no_byte, Sprint_int_digits.
  - destruct (Sprint_int_negative n Hn) as (s & -> & Hs). simpl.
    by rewrite all_digits_no_byte.
Qed.

Lemma Sprint_int_inj (n1 n2 : Z) : Sprint_int n1 = Sprint_int n2 → n1 = n2.
Proof.
  assert (Hnn : ∀ n, Z.to_int n ≠ Decimal.Pos Decimal.Nil
                     ∧ Z.to_int n ≠ Decimal.Neg Decimal.Nil).
  { intros [|p|p]; simpl; split; try done;
      intros [= H]; by apply Unsigned.to_uint_nonnil in H. }
  unfold Sprint_int. intros Heq. apply to_int_inj.
  destruct (Hnn n1) as [? ?], (Hnn n2) as [? ?].
  assert (Some (Z.to_int n1) = Some (Z.to_int n2)) as [= ->]; [|done].
  rewrite <- (NilZero.isi (Z.to_int n1)), <- (NilZero.isi (Z.to_int n2)) by done.
  by rewrite Heq.
Qed.

Lemma Sprint_bool_inj (b1 b2 : bool) : Sprint_bool b1 = Sprint_bool b2 → b1 = b2.
Proof. by destruct b1, b2. Qed.

(** ** Identity of records *)

Lemma plain_identity_spec (cd : ComDetails) :
  plain_identity cd = true ↔ 0 ≤ Port cd ∧ has_byte "-" (Protocol cd) = false.
Proof.
  unfold plain_identity. rewrite andb_true_iff, Z.leb_le, negb_true_iff. done.
Qed.

Lemma Equals_key (cd other : ComDetails) :
  Equals cd other = true ↔ identity_key cd = identity_key other.
Proof. unfold Equals. apply bool_decide_eq_true. Qed.

(** Records that agree on the three identity fields are equal for [Equals]. *)
Lemma Equals_same_identity (cd other : ComDetails) :
  identity cd = identity other → Equals cd other = true.
Proof.
  intros [= Hr Hp Hq]. apply Equals_key. unfold identity_key. by rewrite Hr, Hp, Hq.
Qed.

(** On records with plain identity fields the key determines the fields. *)
Lemma identity_key_inj (cd other : ComDetails) :
  plain_identity cd = true → plain_identity other = true →
  identity_key cd = identity_key other → identity cd = identity other.
Proof.
  intros [Hp1 Hd1]%plain_identity_spec [Hp2 Hd2]%plain_identity_spec Hkey.
  unfold identity_key in Hkey.
  rewrite <- !(string_app_assoc _ _ ("-" +:+ _)) in Hkey.
  apply (split_at_last_sep "-") in Hkey as [Hkey Hproto]; [|done..].
  apply (split_at_last_sep "-") in Hkey as [Hrole Hport];
    [|by apply all_digits_no_byte, Sprint_int_digits..].
  apply Sprint_int_inj in Hport. unfold identity. congruence.
Qed.

Lemma Equals_iff_identity (cd other : ComDetails) :
  plain_identity cd = true → plain_identity other = true →
  Equals cd other = true ↔ identity cd = identity other.
Proof.
  intros H1 H2. split; [|apply Equals_same_identity].
  intros Heq%Equals_key. by apply identity_key_inj.
Qed.

Lemma Equals_refl (cd : ComDetails) : Equals cd cd = true.
Proof. by apply Equals_key. Qed.

Lemma Equals_sym (cd other : ComDetails) : Equals cd other = Equals other cd.
Proof. unfold Equals. apply bool_decide_ext. by split. Qed.

(** [ComDetails.String] tells records with comma-free fields apart. *)
Lemma ComDetails_String_inj (cd other : ComDetails) :
  comma_free cd = true → comma_free other = true →
  ComDetails_String cd = ComDetails_String other → cd = other.
Proof.
  unfold comma_free. rewrite !andb_true_iff, !negb_true_iff.
  intros [[[[[[? ?] ?] ?] ?] ?] ?] [[[[[[? ?] ?] ?] ?] ?] ?] Heq.
  unfold ComDetails_String in Heq. simpl in Heq.
  pose proof (Sprint_int_no_comma (Port cd)).
  pose proof (Sprint_int_no_comma (Port other)).
  do 8 (let H := fresh "Hf" in
        apply (split_at_sep ",") in Heq as [H Heq]; [|done..]).
  apply Sprint_bool_inj in Heq. apply Sprint_int_inj in Hf1.
  destruct cd, other; simpl in *; congruence.
Qed.

(** ** The order of [sort] *)

Lemma string_compare_refl (s : string) : String.compare s s = Eq.
Proof.
  pose proof (String.compare_antisym s s) as H.
  by destruct (String.compare s s).
Qed.

Lemma N_of_ascii_inj (a b : ascii) : N_of_ascii a = N_of_ascii b → a = b.
Proof.
  intros H. rewrite <- (ascii_N_embedding a), <- (ascii_N_embedding b). by rewrite H.
Qed.

Lemma string_compare_lt (x y : string) : String.compare x y = Lt ↔ bytes_lt x y.
Proof.
  split.
  - revert y. induction x as [|a x IH]; intros [|b y]; simpl; try done.
    + constructor.
    + unfold Ascii.compare. destruct (N.compare_spec (N_of_ascii a) (N_of_ascii b)) as [E|E|E];
        try done.
      * apply N_of_ascii_inj in E as ->. intros H. by apply bytes_lt_tail, IH.
      * intros _. by apply bytes_lt_head.
  - induction 1 as [a s|a b s t Hab|a s t Hst IH]; simpl; [done|..].
    + unfold Ascii.compare. by apply N.compare_lt_iff in Hab as ->.
    + unfold Ascii.compare. by rewrite N.compare_refl.
Qed.

Lemma string_compare_trans (x y z : string) :
  String.compare x y = Lt → String.compare y z = Lt → String.compare x z = Lt.
Proof.
  revert y z. induction x as [|a x IH]; intros [|b y] [|c z]; simpl; try done.
  unfold Ascii.compare.
  destruct (N.compare_spec (N_of_ascii a) (N_of_ascii b)) as [E1|E1|E1];
    destruct (N.compare_spec (N_of_ascii b) (N_of_ascii c)) as [E2|E2|E2];
    try done; intros H1 H2.
  - rewrite E1, E2, N.compare_refl. eauto.
  - rewrite E1. by apply N.compare_lt_iff in E2 as ->.
  - rewrite <- E2. by apply N.compare_lt_iff in E1 as ->.
  - assert (N_of_ascii a < N_of_ascii c)%N as ->%N.compare_lt_iff by lia. done.
Qed.

Lemma total_cmp_string : total_cmp cmp_Compare_string.
Proof.
  unfold cmp_Compare_string. split.
  - intros a b. split.
    + destruct (String.compare a b) eqn:E; try done.
      intros _. by apply String.compare_eq_iff.
    + intros ->. by rewrite string_compare_refl.
  - intros a b. rewrite (String.compare_antisym a b).
    destruct (String.compare b a); simpl; lia.
  - intros a b d.
    destruct (String.compare a b) eqn:E1; try lia.
    destruct (String.compare b d) eqn:E2; try lia.
    by rewrite (string_compare_trans a b d).
Qed.

Lemma total_cmp_int : total_cmp cmp_Compare_int.
Proof.
  unfold cmp_Compare_int. split; intros; repeat case_match; lia.
Qed.

Lemma total_cmp_lex {A B : Type} (c1 : A → A → Z) (c2 : B → B → Z) :
  total_cmp c1 → total_cmp c2 → total_cmp (lex_cmp c1 c2).
Proof.
  intros [eq1 flip1 trans1] [eq2 flip2 trans2].
  assert (Hz : ∀ a b, c1 a b = 0 → c1 b a = 0).
  { intros a b ->%eq1. by apply eq1. }
  unfold lex_cmp. split.
  - intros [a1 b1] [a2 b2]; simpl. destruct (Z.eqb_spec (c1 a1 a2) 0) as [E|E]; simpl.
    + rewrite eq2. apply eq1 in E as ->. split; [by intros ->|by intros [= ->]].
    + split; [done|]. intros [= -> ->]. destruct E. by apply eq1.
  - intros [a1 b1] [a2 b2]; simpl.
    destruct (Z.eqb_spec (c1 a1 a2) 0) as [E|E],
             (Z.eqb_spec (c1 a2 a1) 0) as [E'|E']; simpl; auto.
    + by apply Hz in E.
    + by apply Hz in E'.
  - intros [a1 b1] [a2 b2] [a3 b3]; simpl.
    destruct (Z.eqb_spec (c1 a1 a2) 0) as [E12|E12],
             (Z.eqb_spec (c1 a2 a3) 0) as [E23|E23]; simpl.
    + apply eq1 in E12 as ->. apply eq1 in E23 as ->.
      rewrite (proj2 (eq1 a3 a3) eq_refl). simpl. apply trans2.
    + apply eq1 in E12 as ->. destruct (Z.eqb_spec (c1 a2 a3) 0); done.
    + apply eq1 in E23 as ->. destruct (Z.eqb_spec (c1 a1 a3) 0); done.
    + intros H1 H2. pose proof (trans1 _ _ _ H1 H2).
      destruct (Z.eqb_spec (c1 a1 a3) 0); simpl; lia.
Qed.

(** A total comparison of keys is a strict weak ordering of the records. *)
Lemma total_cmp_strict_weak {A K : Type} (c : K → K → Z) (key : A → K) :
  total_cmp c → strict_weak_ordering (λ a b, c (key a) (key b)).
Proof.
  intros [Heq Hflip Htrans]. repeat split.
  - intros a. rewrite (proj2 (Heq (key a) (key a)) eq_refl). lia.
  - intros a b d. apply Htrans.
  - intros a b d Had.
    destruct (Z.lt_trichotomy (c (key a) (key b)) 0) as [H|[H|H]]; [by left|..].
    + apply Heq in H. rewrite <- H. by right.
    + right. apply Hflip in H. by eapply Htrans.
  - by apply Hflip.
  - by apply Hflip.
Qed.

Lemma total_cmp_sort_key :
  total_cmp (lex_cmp cmp_Compare_string (lex_cmp cmp_Compare_string cmp_Compare_int)).
Proof. auto using total_cmp_lex, total_cmp_string, total_cmp_int. Qed.

Lemma sort_cmp_lex (a b : ComDetails) :
  sort_cmp a b
  = lex_cmp cmp_Compare_string (lex_cmp cmp_Compare_string cmp_Compare_int)
      (sort_key a) (sort_key b).
Proof. done. Qed.

(** The comparison of [sort] meets the requirement of [slices.SortFunc]. *)
Lemma sort_cmp_strict_weak : strict_weak_ordering sort_cmp.
Proof. exact (total_cmp_strict_weak _ sort_key total_cmp_sort_key). Qed.

Lemma sort_cmp_tie (a b : ComDetails) : sort_cmp a b = 0 ↔ identity a = identity b.
Proof.
  pose proof (tc_eq _ total_cmp_sort_key (sort_key a) (sort_key b)) as H.
  rewrite sort_cmp_lex, H. unfold sort_key, identity.
  split; intros [= ? ? ?]; congruence.
Qed.

Lemma string_compare_cases (x y : string) :
  (String.compare x y = Eq ∧ String.compare y x = Eq ∧ x = y)
  ∨ (String.compare x y = Lt ∧ String.compare y x = Gt ∧ x ≠ y)
  ∨ (String.compare x y = Gt ∧ String.compare y x = Lt ∧ x ≠ y).
Proof.
  pose proof (String.compare_antisym x y) as Hanti.
  assert (x = y → String.compare y x = Eq) by (intros ->; apply string_compare_refl).
  destruct (String.compare y x) eqn:E; simpl in Hanti.
  - left. apply String.compare_eq_iff in E. auto.
  - right; right. repeat split; [done|]. intros ?. by assert (Lt = Eq) by auto.
  - right; left. repeat split; [done|]. intros ?. by assert (Gt = Eq) by auto.
Qed.

(** The comparison of [sort] decides the order by (nodeRole, protocol, port). *)
Lemma sort_cmp_key_le (a b : ComDetails) : ¬ sort_cmp b a < 0 ↔ key_le a b.
Proof.
  unfold sort_cmp, key_le, cmp_Compare_string, cmp_Compare_int.
  rewrite <- !string_compare_lt.
  destruct (string_compare_cases (NodeRole a) (NodeRole b))
    as [(-> & -> & ?)|[(-> & -> & ?)|(-> & -> & ?)]]; simpl;
    [|intuition (lia || discriminate || congruence)..].
  destruct (string_compare_cases (Protocol a) (Protocol b))
    as [(-> & -> & ?)|[(-> & -> & ?)|(-> & -> & ?)]]; simpl;
    [|intuition (lia || discriminate || congruence)..].
  destruct (Z.ltb_spec (Port b) (Port a)), (Z.ltb_spec (Port a) (Port b));
    intuition (lia || discriminate || congruence).
Qed.

(** ** The contract of [slices.SortFunc] and insertion sort *)

Lemma IsSortedFunc_Sorted {E : Type} (x : list E) (cmp : E → E → Z) :
  IsSortedFunc x cmp = true ↔ Sorted (λ a b, ¬ cmp b a < 0) x.
Proof.
  induction x as [|a [|b x] IH]; simpl in *.
  - split; [constructor|done].
  - split; [repeat constructor|done].
  - rewrite andb_true_iff, negb_true_iff, Z.ltb_ge, IH. split.
    + intros [Hab Hs]. constructor; [done|]. constructor. lia.
    + intros Hs. inversion Hs as [|? ? Hs' Hhd]; subst.
      inversion Hhd; subst. split; [lia|done].
Qed.

Lemma sink_Permutation {E : Type} (cmp : E → E → Z) (x : E) (l : list E) :
  sink cmp x l ≡ₚ x :: l.
Proof.
  induction l as [|y l IH]; simpl; [done|].
  destruct (cmp x y <? 0); [|done]. rewrite IH. apply Permutation_swap.
Qed.

Lemma sink_Sorted {E : Type} (cmp : E → E → Z) (x : E) (l : list E) :
  (∀ a b, cmp a b < 0 → ¬ cmp b a < 0) →
  Sorted (λ a b, ¬ cmp a b < 0) l → Sorted (λ a b, ¬ cmp a b < 0) (sink cmp x l).
Proof.
  intros Hasym. induction l as [|y l IH]; simpl; intros Hs.
  - repeat constructor.
  - destruct (Z.ltb_spec (cmp x y) 0) as [Hlt|Hge].
    + inversion Hs as [|? ? Hs' Hhd]; subst. constructor; [by apply IH|].
      destruct l as [|z l]; simpl.
      * constructor. by apply Hasym.
      * inversion Hhd; subst.
        destruct (cmp x z <? 0); constructor; [done|by apply Hasym].
    + constructor; [done|]. constructor. lia.
Qed.

Lemma strict_weak_asym {E : Type} (cmp : E → E → Z) :
  strict_weak_ordering cmp → ∀ a b, cmp a b < 0 → ¬ cmp b a < 0.
Proof.
  intros (Hirr & Htrans & _) a b Hab Hba. apply (Hirr a). by eapply Htrans.
Qed.

Lemma insertionSortCmpFunc_contract : SortFunc_contract insertionSortCmpFunc.
Proof.
  intros E x cmp Hswo. unfold insertionSortCmpFunc.
  assert (Hperm : ∀ data acc,
            fold_left (λ acc x, sink cmp x acc) data acc ≡ₚ data ++ acc).
  { induction data as [|y data IH]; intros acc; simpl; [done|].
    rewrite IH, sink_Permutation. by rewrite Permutation_middle. }
  assert (Hsorted : ∀ data acc,
            Sorted (λ a b, ¬ cmp a b < 0) acc →
            Sorted (λ a b, ¬ cmp a b < 0)
              (fold_left (λ acc x, sink cmp x acc) data acc)).
  { induction data as [|y data IH]; intros acc Hacc; simpl; [done|].
    apply IH, sink_Sorted; [|done]. by apply strict_weak_asym. }
  split.
  - by rewrite reverse_Permutation, Hperm, app_nil_r.
  - apply IsSortedFunc_Sorted.
    apply (Sorted_reverse (λ a b, ¬ cmp a b < 0)), Hsorted. constructor.
Qed.

Lemma insertionSortFromEnd_contract : SortFunc_contract insertionSortFromEnd.
Proof.
  intros E x cmp Hswo. unfold insertionSortFromEnd.
  destruct (insertionSortCmpFunc_contract E (reverse x) cmp Hswo) as [Hperm Hs].
  split; [|done]. by rewrite Hperm, reverse_Permutation.
Qed.

(** ** What [sort] guarantees under the contract *)

Lemma key_le_trans (a b c : ComDetails) : key_le a b → key_le b c → key_le a c.
Proof.
  rewrite <- !sort_cmp_key_le. intros Hab Hbc Hca.
  destruct sort_cmp_strict_weak as (_ & _ & Hneg & _).
  destruct (Hneg c b a Hca); done.
Qed.

Lemma key_le_antisym (a b : ComDetails) :
  key_le a b → key_le b a → identity a = identity b.
Proof.
  rewrite <- !sort_cmp_key_le. intros Hab Hba. apply sort_cmp_tie.
  destruct sort_cmp_strict_weak as (_ & _ & _ & Hflip).
  specialize (Hflip a b). lia.
Qed.

Section sort_contract.
Variable SortFunc : SortFunc_type.
Hypothesis SortFunc_ok : SortFunc_contract SortFunc.

Lemma sort_Permutation (m : ComMatrix) : Matrix (sort SortFunc m) ≡ₚ Matrix m.
Proof. apply SortFunc_ok, sort_cmp_strict_weak. Qed.

Lemma sort_Sorted (m : ComMatrix) : Sorted key_le (Matrix (sort SortFunc m)).
Proof.
  destruct (SortFunc_ok _ (Matrix m) sort_cmp sort_cmp_strict_weak) as [_ Hs].
  apply IsSortedFunc_Sorted in Hs. simpl.
  eapply Sorted_ind with (P := Sorted key_le); [constructor| |exact Hs].
  intros a l _ IH Hhd. constructor; [done|].
  destruct Hhd; constructor. by apply sort_cmp_key_le.
Qed.

(** Sorting a matrix that is in order and has no two records with the
    same key leaves it as it is, whatever the library does with ties. *)
Lemma sort_fixed (m : ComMatrix) :
  NoDup (identity_key <$> Matrix m) → Sorted key_le (Matrix m) →
  sort SortFunc m = m.
Proof.
  intros Hnd Hs. destruct m as [l]. unfold sort. f_equal. simpl in *.
  pose proof (sort_Permutation {| Matrix := l |}) as Hperm.
  pose proof (sort_Sorted {| Matrix := l |}) as Hs'. simpl in *.
  assert (Transitive key_le) by (intros ???; apply key_le_trans).
  apply (Sorted_unique_strong key_le); [|done..].
  intros x1 x2 Hx1 Hx2 H12 H21. rewrite Hperm in Hx1.
  pose proof (key_le_antisym _ _ H12 H21) as Hid.
  apply Equals_same_identity, Equals_key in Hid.
  apply list_elem_of_lookup in Hx1 as [i Hi], Hx2 as [j Hj].
  assert (i = j) as ->; [|congruence].
  eapply NoDup_lookup; [exact Hnd|..]; rewrite list_lookup_fmap.
  - by rewrite Hi.
  - rewrite Hj. simpl. by rewrite Hid.
Qed.
End sort_contract.

(** ** [deleteDuplicates] *)

Lemma deleteDuplicates_fold (l : list ComDetails) (allKeys : gmap string bool)
    (res : list ComDetails) :
  (fold_left deleteDuplicates_step l (allKeys, res)).2
  = res ++ first_of_each_key allKeys l.
Proof.
  revert allKeys res. induction l as [|item l IH]; intros allKeys res; simpl.
  - by rewrite app_nil_r.
  - unfold deleteDuplicates_step at 2. simpl.
    destruct (allKeys !! identity_key item); [apply IH|].
    by rewrite IH, <- app_assoc.
Qed.

Lemma deleteDuplicates_first (m : ComMatrix) :
  Matrix (deleteDuplicates m) = first_of_each_key ∅ (Matrix m).
Proof. unfold deleteDuplicates. simpl. by rewrite deleteDuplicates_fold. Qed.

(** Of the records with one key, the first of the input is kept and no
    other. *)
Lemma first_of_each_key_filter (k : string) (seen : gmap string bool)
    (l : list ComDetails) :
  filter (λ x, identity_key x = k) (first_of_each_key seen l)
  = match seen !! k with
    | Some _ => []
    | None => take 1 (filter (λ x, identity_key x = k) l)
    end.
Proof.
  revert seen. induction l as [|item l IH]; intros seen; simpl.
  - by destruct (seen !! k).
  - destruct (seen !! identity_key item) eqn:Hitem.
    + rewrite IH. destruct (seen !! k) eqn:Hk; [done|].
      rewrite filter_cons_False; [done|]. congruence.
    + rewrite !filter_cons. rewrite IH. case_decide as Hkey.
      * subst k. by rewrite Hitem, lookup_insert_eq.
      * by rewrite lookup_insert_ne.
Qed.

Lemma first_of_each_key_NoDup (seen : gmap string bool) (l : list ComDetails) :
  NoDup (identity_key <$> first_of_each_key seen l)
  ∧ ∀ x, x ∈ first_of_each_key seen l → seen !! identity_key x = None.
Proof.
  revert seen. induction l as [|item l IH]; intros seen; simpl.
  - split; [constructor|]. by intros x ?%elem_of_nil.
  - destruct (seen !! identity_key item) eqn:Hitem; [apply IH|].
    destruct (IH (<[identity_key item := true]> seen)) as [Hnd Hfresh].
    split.
    + rewrite fmap_cons. constructor; [|done].
      intros (x & Hkey & Hx)%list_elem_of_fmap. apply Hfresh in Hx.
      by rewrite <- Hkey, lookup_insert_eq in Hx.
    + intros x [->|Hx]%elem_of_cons; [done|]. apply Hfresh in Hx.
      destruct (decide (identity_key item = identity_key x)) as [E|E].
      * by rewrite <- E, lookup_insert_eq in Hx.
      * by rewrite lookup_insert_ne in Hx.
Qed.

Lemma first_of_each_key_id (seen : gmap string bool) (l : list ComDetails) :
  NoDup (identity_key <$> l) → (∀ x, x ∈ l → seen !! identity_key x = None) →
  first_of_each_key seen l = l.
Proof.
  revert seen. induction l as [|item l IH]; intros seen Hnd Hfresh; simpl; [done|].
  rewrite fmap_cons in Hnd. apply NoDup_cons in Hnd as [Hitem Hnd].
  rewrite Hfresh by left. f_equal. apply IH; [done|].
  intros x Hx. rewrite lookup_insert_ne; [apply Hfresh; by right|].
  intros E. apply Hitem. rewrite E. apply list_elem_of_fmap. eauto.
Qed.

Lemma deleteDuplicates_NoDup (m : ComMatrix) :
  NoDup (identity_key <$> Matrix (deleteDuplicates m)).
Proof. rewrite deleteDuplicates_first. apply first_of_each_key_NoDup. Qed.

Lemma deleteDuplicates_id (m : ComMatrix) :
  NoDup (identity_key <$> Matrix m) → deleteDuplicates m = m.
Proof.
  intros Hnd. destruct m as [l]. unfold deleteDuplicates. f_equal. simpl in *.
  rewrite deleteDuplicates_fold. simpl. by apply first_of_each_key_id.
Qed.

Lemma filter_ext_Forall {A : Type} (P Q : A → Prop)
    `{!∀ x, Decision (P x), !∀ x, Decision (Q x)} (l : list A) :
  Forall (λ x, P x ↔ Q x) l → filter P l = filter Q l.
Proof.
  induction 1 as [|x l Hx _ IH]; [done|].
  rewrite !filter_cons, IH. repeat case_decide; (done || tauto).
Qed.

(** On records with plain identity fields, selecting by identity and by key
    is the same. *)
Lemma same_identity_key (cd : ComDetails) (l : list ComDetails) :
  plain_identity cd = true → Forall (λ x, plain_identity x = true) l →
  same_identity cd l = filter (λ x, identity_key x = identity_key cd) l.
Proof.
  intros Hcd Hl. unfold same_identity. apply filter_ext_Forall.
  eapply Forall_impl; [exact Hl|]. intros x Hx. simpl.
  rewrite <- Equals_key. symmetry. by apply Equals_iff_identity.
Qed.

(** ** Claims on [Equals], [sort] and [CleanComDetails] *)

(** Fields other than the three of the identity do not enter [Equals]. *)
Lemma Equals_other_fields (cd cd' other other' : ComDetails) :
  identity cd = identity cd' → identity other = identity other' →
  Equals cd other = Equals cd' other'.
Proof.
  intros [= H1 H2 H3] [= H4 H5 H6]. unfold Equals, identity_key.
  by rewrite H1, H2, H3, H4, H5, H6.
Qed.

(** C2, at a failing input: [Equals] holds two records for the same flow
    although they differ in all three of nodeRole, port and protocol; the
    dash inside a field is read as the separator of the key. *)
Theorem Equals_dash_collision :
  Equals cd_infra1 cd_infra = true
  ∧ NodeRole cd_infra1 ≠ NodeRole cd_infra
  ∧ Port cd_infra1 ≠ Port cd_infra
  ∧ Protocol cd_infra1 ≠ Protocol cd_infra.
Proof. by vm_compute. Qed.

(** On a slice of more than twelve elements the library partitions around a
    pivot, and the exchanges of the partition carry records past records of
    their own key. Of the thirteen records, twelve in order and one appended
    with the key of the first, the pivot is the seventh: it changes places
    with the first record, the appended record is exchanged into the front
    part, and the first record comes back behind it. *)
Example sort_thirteen_records
    (breakPatternsCmpFunc : ∀ E : Type, (E → E → Z) → list E → nat → nat → list E) :
  Matrix (sort (slices_SortFunc breakPatternsCmpFunc) thirteen_records)
  = [ cd_ssh_proxy;
      cd_sshd;
      flow "master" "TCP" 80 "http";
      flow "master" "TCP" 443 "https";
      flow "master" "TCP" 2379 "etcd";
      flow "master" "TCP" 2380 "etcd-peer";
      flow "master" "TCP" 6443 "kube-apiserver";
      flow "master" "TCP" 8080 "web";
      flow "master" "TCP" 9090 "prometheus";
      flow "master" "TCP" 9100 "node-exporter";
      flow "master" "TCP" 10250 "kubelet";
      flow "master" "TCP" 10257 "kube-controller-manager";
      flow "master" "TCP" 10259 "kube-scheduler" ].
Proof. by vm_compute. Qed.

(** C4, as stated, fails: [sort], with the sort of the library, does not
    keep tied records in their original order. Of the thirteen records the
    two of port 22 come out exchanged, whatever [breakPatternsCmpFunc] is,
    which this run does not reach. *)
Lemma sort_not_stable :
  ¬ (∃ breakPatternsCmpFunc :
         ∀ E : Type, (E → E → Z) → list E → nat → nat → list E,
       ∀ m : ComMatrix,
         Sorted key_le (Matrix (sort (slices_SortFunc breakPatternsCmpFunc) m))
         ∧ keeps_ties (Matrix m)
             (Matrix (sort (slices_SortFunc breakPatternsCmpFunc) m))).
Proof.
  intros [breakPatternsCmpFunc Hclaim].
  destruct (Hclaim thirteen_records) as [_ Hties].
  specialize (Hties cd_sshd). rewrite sort_thirteen_records in Hties.
  vm_compute in Hties. discriminate.
Qed.

(** C4, amended: [sort] rearranges the records of the matrix into ascending
    order by (nodeRole, protocol, port), lexicographic on the first two and
    numeric on the third; every group of tied records keeps its members, in
    an order the library does not fix. *)
Theorem sort_orders (SortFunc : SortFunc_type) (m : ComMatrix) :
  SortFunc_contract SortFunc →
  Matrix (sort SortFunc m) ≡ₚ Matrix m
  ∧ StronglySorted key_le (Matrix (sort SortFunc m))
  ∧ ∀ cd, ties_of cd (Matrix (sort SortFunc m)) ≡ₚ ties_of cd (Matrix m).
Proof.
  intros Hok. pose proof (sort_Permutation SortFunc Hok m) as Hperm.
  split; [done|]. split.
  - assert (Transitive key_le) by (intros ???; apply key_le_trans).
    by apply Sorted_StronglySorted, sort_Sorted.
  - intros cd. unfold ties_of. by rewrite Hperm.
Qed.

Lemma sort_orders_witness :
  SortFunc_contract insertionSortCmpFunc
  ∧ (let m := {| Matrix := [cd_dns; cd_api; cd_sshd; cd_ssh_proxy] |} in
     Matrix (sort insertionSortCmpFunc m) ≡ₚ Matrix m
     ∧ StronglySorted key_le (Matrix (sort insertionSortCmpFunc m))
     ∧ ∀ cd, ties_of cd (Matrix (sort insertionSortCmpFunc m))
             ≡ₚ ties_of cd (Matrix m)).
Proof.
  split; [exact insertionSortCmpFunc_contract|].
  exact (sort_orders insertionSortCmpFunc _ insertionSortCmpFunc_contract).
Defined.

(** What [CleanComDetails] keeps for one key: the first record of the input
    that has it. *)
Lemma CleanComDetails_key (SortFunc : SortFunc_type) (m : ComMatrix) (k : string) :
  SortFunc_contract SortFunc →
  filter (λ x, identity_key x = k) (Matrix (CleanComDetails SortFunc m))
  = take 1 (filter (λ x, identity_key x = k) (Matrix m)).
Proof.
  intros Hok. unfold CleanComDetails.
  pose proof (sort_Permutation SortFunc Hok (deleteDuplicates m)) as Hperm.
  apply (filter_Permutation (λ x, identity_key x = k)) in Hperm.
  rewrite deleteDuplicates_first, first_of_each_key_filter, lookup_empty in Hperm.
  destruct (filter (λ x, identity_key x = k) (Matrix m)) as [|x l]; simpl in *.
  - by apply Permutation_nil_r.
  - rewrite take_0 in *. by apply Permutation_singleton_r.
Qed.

(** On matrices whose records have plain identity fields, [CleanComDetails]
    keeps for every identity the first record of the input and no other. *)
Lemma CleanComDetails_first_plain (SortFunc : SortFunc_type) (m : ComMatrix)
    (cd : ComDetails) :
  SortFunc_contract SortFunc →
  Forall (λ x, plain_identity x = true) (Matrix m) → plain_identity cd = true →
  same_identity cd (Matrix (CleanComDetails SortFunc m))
  = take 1 (same_identity cd (Matrix m)).
Proof.
  intros Hok Hm Hcd.
  rewrite !same_identity_key, CleanComDetails_key; [done..|].
  pose proof (sort_Permutation SortFunc Hok (deleteDuplicates m)) as Hperm.
  unfold CleanComDetails. rewrite Hperm, deleteDuplicates_first.
  apply Forall_forall. intros x Hx. rewrite Forall_forall in Hm. apply Hm.
  clear -Hx. revert Hx. generalize (∅ : gmap string bool).
  induction (Matrix m) as [|item l IH]; intros seen; simpl; [done|].
  destruct (seen !! identity_key item).
  - intros ?%IH. by right.
  - intros [->|?%IH]%elem_of_cons; [by left|by right].
Qed.

(** C7, at a failing input: of two records with different identities whose
    keys read alike, [CleanComDetails] keeps the first and drops the second,
    so that the identity of the second has no record left. *)
Theorem CleanComDetails_drops_identity (SortFunc : SortFunc_type) :
  SortFunc_contract SortFunc →
  let m := {| Matrix := [cd_infra1; cd_infra] |} in
  identity cd_infra1 ≠ identity cd_infra
  ∧ Matrix (CleanComDetails SortFunc m) = [cd_infra1]
  ∧ same_identity cd_infra (Matrix m) = [cd_infra]
  ∧ same_identity cd_infra (Matrix (CleanComDetails SortFunc m)) = [].
Proof.
  intros Hok m.
  assert (Hclean : Matrix (CleanComDetails SortFunc m) = [cd_infra1]).
  { pose proof (sort_Permutation SortFunc Hok (deleteDuplicates m)) as Hperm.
    by apply Permutation_singleton_r in Hperm. }
  rewrite Hclean. by vm_compute.
Qed.

Lemma CleanComDetails_drops_identity_witness :
  SortFunc_contract insertionSortCmpFunc
  ∧ (let m := {| Matrix := [cd_infra1; cd_infra] |} in
     identity cd_infra1 ≠ identity cd_infra
     ∧ Matrix (CleanComDetails insertionSortCmpFunc m) = [cd_infra1]
     ∧ same_identity cd_infra (Matrix m) = [cd_infra]
     ∧ same_identity cd_infra (Matrix (CleanComDetails insertionSortCmpFunc m)) = []).
Proof.
  split; [exact insertionSortCmpFunc_contract|].
  exact (CleanComDetails_drops_identity insertionSortCmpFunc
           insertionSortCmpFunc_contract).
Defined.

(** C8: [CleanComDetails] is idempotent; a second run changes neither the
    records nor their order. *)
Theorem CleanComDetails_idempotent (SortFunc : SortFunc_type) (m : ComMatrix) :
  SortFunc_contract SortFunc →
  CleanComDetails SortFunc (CleanComDetails SortFunc m)
  = CleanComDetails SortFunc m.
Proof.
  intros Hok. unfold CleanComDetails.
  set (d := deleteDuplicates m). set (s := sort SortFunc d).
  assert (Hnd : NoDup (identity_key <$> Matrix s)).
  { pose proof (sort_Permutation SortFunc Hok d) as Hperm.
    unfold s. rewrite Hperm. apply deleteDuplicates_NoDup. }
  rewrite (deleteDuplicates_id s Hnd).
  apply sort_fixed; [done..|]. by apply sort_Sorted.
Qed.

Lemma CleanComDetails_idempotent_witness :
  SortFunc_contract insertionSortCmpFunc
  ∧ (let m := {| Matrix := [cd_dns; cd_sshd; cd_api; cd_ssh_proxy; cd_dns] |} in
     CleanComDetails insertionSortCmpFunc (CleanComDetails insertionSortCmpFunc m)
     = CleanComDetails insertionSortCmpFunc m).
Proof.
  split; [exact insertionSortCmpFunc_contract|].
  exact (CleanComDetails_idempotent insertionSortCmpFunc _
           insertionSortCmpFunc_contract).
Defined.

(** ** [Contains] and [combine] *)

Lemma Contains_spec (m : ComMatrix) (cd : ComDetails) :
  Contains m cd = true ↔ ∃ x, x ∈ Matrix m ∧ Equals x cd = true.
Proof.
  unfold Contains. induction (Matrix m) as [|cd1 l IH].
  - split; [done|]. by intros (x & ?%elem_of_nil & _).
  - destruct (Equals cd1 cd) eqn:E.
    + split; [|done]. intros _. exists cd1. split; [left|done].
    + rewrite IH. split.
      * intros (x & Hx & Heq). exists x. split; [by right|done].
      * intros (x & [->|Hx]%elem_of_cons & Heq); [congruence|eauto].
Qed.

Lemma Contains_elem (m : ComMatrix) (cd : ComDetails) :
  cd ∈ Matrix m → Contains m cd = true.
Proof. intros Hcd. apply Contains_spec. exists cd. by rewrite Equals_refl. Qed.

Lemma Contains_Permutation (m m' : ComMatrix) (cd : ComDetails) :
  Matrix m ≡ₚ Matrix m' → Contains m cd = Contains m' cd.
Proof.
  intros Hperm. apply eq_true_iff_eq. rewrite !Contains_spec.
  by setoid_rewrite Hperm.
Qed.

(** On plain records [Contains] is membership by identity. *)
Lemma Contains_has_identity (m : ComMatrix) (cd : ComDetails) :
  Forall (λ x, plain_identity x = true) (Matrix m) → plain_identity cd = true →
  Contains m cd = true ↔ has_identity m cd.
Proof.
  intros Hm Hcd. rewrite Contains_spec. unfold has_identity.
  rewrite Forall_forall in Hm.
  split; intros (x & Hx & Heq); exists x; (split; [done|]);
    by apply (Equals_iff_identity x cd); auto.
Qed.

Lemma combine_fold (m : ComMatrix) (l acc : list ComDetails) (shared : option nat) :
  fold_left (combine_step m) l (acc, shared)
  = (acc ++ filter (λ cd, Contains m cd = false) l,
     room_after shared (length (filter (λ cd, Contains m cd = false) l))).
Proof.
  revert acc shared. induction l as [|cd l IH]; intros acc shared; simpl.
  - rewrite app_nil_r. f_equal. destruct shared as [r|]; simpl; [|done].
    f_equal. lia.
  - unfold combine_step at 2. rewrite filter_cons.
    destruct (Contains m cd) eqn:E; simpl.
    + apply IH.
    + unfold append_in_place. simpl. rewrite IH, <- app_assoc. simpl. f_equal.
      destruct shared as [[|r]|]; simpl; try done.
      repeat case_decide; try lia; done.
Qed.

(** The matrix [combine] returns: the records of [m] and the fresh records
    of [other], sorted. *)
Lemma combine_value (SortFunc : SortFunc_type) (room : nat) (m other : ComMatrix) :
  (combine SortFunc room m other).1
  = sort SortFunc {| Matrix := Matrix m ++ fresh_records m other |}.
Proof. unfold combine. simpl. by rewrite combine_fold. Qed.

(** The matrix the receiver holds after [combine]. *)
Lemma combine_receiver (SortFunc : SortFunc_type) (room : nat) (m other : ComMatrix) :
  (combine SortFunc room m other).2
  = if decide (length (fresh_records m other) ≤ room)%nat
    then {| Matrix := take (length (Matrix m))
                        (Matrix (combine SortFunc room m other).1) |}
    else m.
Proof.
  unfold combine. simpl. rewrite combine_fold. simpl.
  fold (fresh_records m other). by case_decide.
Qed.

Section combine_contract.
Variable SortFunc : SortFunc_type.
Hypothesis SortFunc_ok : SortFunc_contract SortFunc.

Lemma combine_Permutation (room : nat) (m other : ComMatrix) :
  Matrix (combine SortFunc room m other).1 ≡ₚ Matrix m ++ fresh_records m other.
Proof. rewrite combine_value. by apply sort_Permutation. Qed.

Lemma combine_Sorted (room : nat) (m other : ComMatrix) :
  Sorted key_le (Matrix (combine SortFunc room m other).1).
Proof. rewrite combine_value. by apply sort_Sorted. Qed.

(** A record is in the combined matrix when it is a record of [m], or a
    record of [other] that [m] does not contain. *)
Lemma combine_elem (room : nat) (m other : ComMatrix) (cd : ComDetails) :
  cd ∈ Matrix (combine SortFunc room m other).1
  ↔ cd ∈ Matrix m ∨ (cd ∈ Matrix other ∧ Contains m cd = false).
Proof.
  rewrite combine_Permutation, elem_of_app. unfold fresh_records.
  rewrite list_elem_of_filter. tauto.
Qed.

(** The combined matrix of two matrices without repeated keys has none. *)
Lemma combine_NoDup (room : nat) (m other : ComMatrix) :
  NoDup (identity_key <$> Matrix m) → NoDup (identity_key <$> Matrix other) →
  identity_free_of_duplicates (Matrix (combine SortFunc room m other).1).
Proof.
  intros Hm Hother. unfold identity_free_of_duplicates.
  apply (NoDup_fmap_1 (λ i : string * Z * string,
           i.1.1 +:+ "-" +:+ Sprint_int i.1.2 +:+ "-" +:+ i.2)).
  rewrite <- list_fmap_compose.
  change (NoDup (identity_key <$> Matrix (combine SortFunc room m other).1)).
  rewrite combine_Permutation, fmap_app. apply NoDup_app. repeat split.
  - done.
  - intros k (a & -> & Ha)%list_elem_of_fmap (b & Hk & Hb)%list_elem_of_fmap.
    apply list_elem_of_filter in Hb as [Hb _].
    assert (Contains m b = true); [|congruence].
    apply Contains_spec. exists a. split; [done|]. by apply Equals_key.
  - eapply sublist_NoDup; [exact Hother|]. apply fmap_sublist, sublist_filter.
Qed.

(** When the fresh records do not fit into the spare cells of the
    receiver, or there are none, the receiver keeps its records (sorted,
    if there are none). *)
Lemma combine_receiver_kept (room : nat) (m other : ComMatrix) :
  fresh_records m other = [] ∨ (room < length (fresh_records m other))%nat →
  Matrix (combine SortFunc room m other).2 ≡ₚ Matrix m.
Proof.
  intros Hfresh. rewrite combine_receiver.
  pose proof (combine_Permutation room m other) as Hperm.
  destruct Hfresh as [Hnil|Hlt].
  - rewrite Hnil, app_nil_r in Hperm. case_decide; [|done]. simpl.
    rewrite take_ge; [done|]. by rewrite Hperm.
  - by rewrite decide_False by lia.
Qed.
End combine_contract.

(** Two records of [other] with one identity that [m] lacks are both
    appended, whatever the sort. *)
Lemma combine_keeps_both (SortFunc : SortFunc_type) (room : nat) :
  SortFunc_contract SortFunc →
  ¬ identity_free_of_duplicates
      (Matrix (combine SortFunc room {| Matrix := [] |}
                 {| Matrix := [cd_sshd; cd_ssh_proxy] |}).1).
Proof.
  intros Hok. unfold identity_free_of_duplicates.
  rewrite (combine_Permutation SortFunc Hok).
  intros Hnd. by apply NoDup_cons_1_1 in Hnd; apply Hnd; left.
Qed.

(** Without repeated identities in a matrix of plain records there are no
    repeated keys. *)
Lemma plain_NoDup_keys (l : list ComDetails) :
  Forall (λ x, plain_identity x = true) l →
  identity_free_of_duplicates l → NoDup (identity_key <$> l).
Proof.
  intros Hl Hnd. unfold identity_free_of_duplicates in Hnd.
  apply NoDup_fmap_1 in Hnd as Hnd'.
  apply NoDup_fmap_2_strong; [|done].
  intros x y Hx Hy Hkey. rewrite Forall_forall in Hl.
  apply identity_key_inj in Hkey; auto.
  apply list_elem_of_lookup in Hx as [i Hi], Hy as [j Hj].
  assert (i = j) as ->; [|congruence].
  eapply NoDup_lookup; [exact Hnd|..]; rewrite list_lookup_fmap.
  - by rewrite Hi.
  - rewrite Hj. simpl. by rewrite Hkey.
Qed.

(** C1, as stated, fails: with an empty first matrix and a second matrix of
    two records of one identity, both records are in the combined matrix,
    whatever the sort. *)
Lemma combine_not_free_of_duplicates :
  ¬ (∃ (SortFunc : SortFunc_type) (room : nat),
       SortFunc_contract SortFunc
       ∧ combine_claim SortFunc room {| Matrix := [] |}
           {| Matrix := [cd_sshd; cd_ssh_proxy] |}).
Proof.
  intros (SortFunc & room & Hok & _ & _ & _ & Hnd).
  by apply (combine_keeps_both SortFunc room Hok).
Qed.

(** C1, amended: on matrices of records with plain identity fields, the
    matrix [combine] returns has the records of [m] and the records of
    [other] whose identity [m] lacks, and no others; it is in order; and
    no identity is in it twice when none is twice in [m] and none is twice
    in [other]. *)
Theorem combine_guarantee (SortFunc : SortFunc_type) (room : nat)
    (m other : ComMatrix) :
  SortFunc_contract SortFunc →
  Forall (λ x, plain_identity x = true) (Matrix m) →
  Forall (λ x, plain_identity x = true) (Matrix other) →
  let combined := Matrix (combine SortFunc room m other).1 in
  (∀ cd, cd ∈ combined
         ↔ cd ∈ Matrix m ∨ (cd ∈ Matrix other ∧ ¬ has_identity m cd))
  ∧ StronglySorted key_le combined
  ∧ (identity_free_of_duplicates (Matrix m) →
     identity_free_of_duplicates (Matrix other) →
     identity_free_of_duplicates combined).
Proof.
  intros Hok Hm Hother combined. repeat split.
  - intros [?|[Hcd Hfresh]]%(combine_elem SortFunc Hok); [by left|right].
    split; [done|]. intros Hin%Contains_has_identity; [congruence|done|].
    by eapply Forall_forall in Hother.
  - intros [?|[Hcd Hlacks]]; apply (combine_elem SortFunc Hok); [by left|right].
    split; [done|]. apply not_true_is_false.
    intros Hin%Contains_has_identity; [done..|].
    by eapply Forall_forall in Hother.
  - assert (Transitive key_le) by (intros ???; apply key_le_trans).
    by apply Sorted_StronglySorted, combine_Sorted.
  - intros Hnd_m Hnd_other.
    by apply combine_NoDup; [|apply plain_NoDup_keys..].
Qed.

Lemma combine_guarantee_witness :
  let m := {| Matrix := [cd_sshd; cd_api] |} in
  let other := {| Matrix := [cd_ssh_proxy; cd_dns; cd_http] |} in
  let combined := Matrix (combine insertionSortCmpFunc 0 m other).1 in
  SortFunc_contract insertionSortCmpFunc
  ∧ Forall (λ x, plain_identity x = true) (Matrix m)
  ∧ Forall (λ x, plain_identity x = true) (Matrix other)
  ∧ identity_free_of_duplicates (Matrix m)
  ∧ identity_free_of_duplicates (Matrix other)
  ∧ (∀ cd, cd ∈ combined
           ↔ cd ∈ Matrix m ∨ (cd ∈ Matrix other ∧ ¬ has_identity m cd))
  ∧ StronglySorted key_le combined
  ∧ identity_free_of_duplicates combined.
Proof.
  intros m other combined.
  assert (Hm : Forall (λ x, plain_identity x = true) (Matrix m))
    by repeat constructor.
  assert (Hother : Forall (λ x, plain_identity x = true) (Matrix other))
    by repeat constructor.
  assert (Hnd_m : identity_free_of_duplicates (Matrix m))
    by (apply (bool_decide_unpack _); vm_compute; exact I).
  assert (Hnd_other : identity_free_of_duplicates (Matrix other))
    by (apply (bool_decide_unpack _); vm_compute; exact I).
  pose (Hall := combine_guarantee insertionSortCmpFunc 0 m other
                  insertionSortCmpFunc_contract Hm Hother).
  exact (conj insertionSortCmpFunc_contract (conj Hm (conj Hother
           (conj Hnd_m (conj Hnd_other
              (conj (proj1 Hall)
                 (conj (proj1 (proj2 Hall))
                    (proj2 (proj2 Hall) Hnd_m Hnd_other)))))))).
Defined.

(** ** The signs of [markDiffBetweenMatrices] *)

Lemma fold_left_snoc {A B : Type} (f : A → B → A) (l : list B) (x : B) (a : A) :
  fold_left f (l ++ [x]) a = f (fold_left f l a) x.
Proof. by rewrite fold_left_app. Qed.

(** The first loop writes zero or one, whatever the texts of the records. *)
Lemma mark_m_values (other : ComMatrix) (l : list ComDetails)
    (acc : gmap string Z) (k : string) (v : Z) :
  fold_left (mark_step_m other) l acc !! k = Some v →
  acc !! k = Some v ∨ v = 0 ∨ v = 1.
Proof.
  induction l as [|x l IH] using rev_ind; [by left|].
  rewrite fold_left_snoc. unfold mark_step_m at 1.
  destruct (Contains other x);
    (destruct (decide (ComDetails_String x = k)) as [Heq|Hne];
     [rewrite Heq, lookup_insert_eq; intros [= <-]; auto
     |rewrite lookup_insert_ne by done; apply IH]).
Qed.

(** The second loop writes minus one, and only under the text of a record
    of [other] whose service is not rpc.statd and that [m] does not
    contain. *)
Lemma mark_other_values (m : ComMatrix) (l : list ComDetails)
    (acc : gmap string Z) (k : string) (v : Z) :
  fold_left (mark_step_other m) l acc !! k = Some v →
  acc !! k = Some v
  ∨ (v = -1 ∧ ∃ b, b ∈ l ∧ Service b ≠ "rpc.statd" ∧ Contains m b = false
               ∧ ComDetails_String b = k).
Proof.
  induction l as [|x l IH] using rev_ind; [by left|].
  rewrite fold_left_snoc. unfold mark_step_other at 1.
  assert (Hprev : fold_left (mark_step_other m) l acc !! k = Some v →
            acc !! k = Some v
            ∨ (v = -1 ∧ ∃ b, b ∈ l ++ [x] ∧ Service b ≠ "rpc.statd"
                         ∧ Contains m b = false ∧ ComDetails_String b = k)).
  { intros [?|(-> & b & Hb & ?)]%IH; [by left|right].
    split; [done|]. exists b. rewrite elem_of_app. auto. }
  case_bool_decide as Hsvc; [done|].
  destruct (Contains m x) eqn:Hc; simpl; [done|].
  destruct (decide (ComDetails_String x = k)) as [Heq|Hne].
  - rewrite Heq, lookup_insert_eq. intros [= <-]. right. split; [done|].
    exists x. rewrite elem_of_app, list_elem_of_singleton. auto.
  - by rewrite lookup_insert_ne.
Qed.

(** Every sign in the map is one of the three the report knows. *)
Lemma markDiff_values (m other : ComMatrix) (k : string) (v : Z) :
  markDiffBetweenMatrices m other !! k = Some v → v = 0 ∨ v = 1 ∨ v = -1.
Proof.
  unfold markDiffBetweenMatrices.
  intros [[?|[?|?]]%mark_m_values|[-> _]]%mark_other_values; auto.
  by rewrite lookup_empty in *.
Qed.

Lemma mark_of_sign_total (signs : gmap string Z) (cd : ComDetails) :
  (∀ k v, signs !! k = Some v → v = 0 ∨ v = 1 ∨ v = -1) →
  ∃ mk, mark_of_sign (sign_of signs cd) = Some mk.
Proof.
  intros Hvals. unfold sign_of.
  destruct (signs !! ComDetails_String cd) as [v|] eqn:E; simpl; [|eauto].
  destruct (Hvals _ _ E) as [->|[->| ->]]; eauto.
Qed.

(** The line of a record is its text after its mark. *)
Lemma diff_line_mark (signs : gmap string Z) (cd : ComDetails) :
  diff_line signs cd
  = match mark_of_sign (sign_of signs cd) with
    | Some mk => mark_text mk +:+ ComDetails_String cd +:+ newline
    | None => EmptyString
    end.
Proof.
  unfold diff_line, mark_of_sign.
  destruct (sign_of signs cd) as [|[p|p|]|[p|p|]]; done.
Qed.

(** On records with comma-free fields the text of a record is the record,
    and the loops can be read record by record. *)
Lemma mark_m_lookup (other : ComMatrix) (l : list ComDetails)
    (acc : gmap string Z) (cd : ComDetails) :
  Forall (λ x, comma_free x = true) l → comma_free cd = true →
  fold_left (mark_step_m other) l acc !! ComDetails_String cd
  = if decide (cd ∈ l) then Some (if Contains other cd then 0 else 1)
    else acc !! ComDetails_String cd.
Proof.
  intros Hl Hcd. induction l as [|x l IH] using rev_ind.
  { case_decide as Hin; [by apply elem_of_nil in Hin|done]. }
  apply Forall_app in Hl as [Hl [Hx _]%Forall_cons].
  rewrite fold_left_snoc. unfold mark_step_m at 1.
  destruct (decide (x = cd)) as [->|Hne].
  - rewrite decide_True by (rewrite elem_of_app, list_elem_of_singleton; auto).
    destruct (Contains other cd); by rewrite lookup_insert_eq.
  - assert (ComDetails_String x ≠ ComDetails_String cd)
      by (intros ?%ComDetails_String_inj; done).
    assert (Hstep : ∀ v, <[ComDetails_String x := v]>
              (fold_left (mark_step_m other) l acc) !! ComDetails_String cd
              = if decide (cd ∈ l ++ [x])
                then Some (if Contains other cd then 0 else 1)
                else acc !! ComDetails_String cd).
    { intros v. rewrite lookup_insert_ne, IH by done.
      repeat case_decide; try done;
        rewrite elem_of_app, list_elem_of_singleton in *; intuition congruence. }
    destruct (Contains other x); apply Hstep.
Qed.

Lemma mark_other_lookup (m : ComMatrix) (l : list ComDetails)
    (acc : gmap string Z) (cd : ComDetails) :
  Forall (λ x, comma_free x = true) l → comma_free cd = true →
  fold_left (mark_step_other m) l acc !! ComDetails_String cd
  = if decide (cd ∈ l ∧ Service cd ≠ "rpc.statd" ∧ Contains m cd = false)
    then Some (-1)
    else acc !! ComDetails_String cd.
Proof.
  intros Hl Hcd. induction l as [|x l IH] using rev_ind.
  { case_decide as Hin; [by destruct Hin as [?%elem_of_nil _]|done]. }
  apply Forall_app in Hl as [Hl [Hx _]%Forall_cons].
  rewrite fold_left_snoc. unfold mark_step_other at 1.
  specialize (IH Hl). destruct (decide (x = cd)) as [->|Hne].
  - case_bool_decide as Hsvc.
    { rewrite IH. repeat case_decide; try done;
        rewrite ?elem_of_app, ?list_elem_of_singleton in *; intuition congruence. }
    destruct (Contains m cd) eqn:Hc; simpl.
    { rewrite IH. repeat case_decide; try done;
        rewrite ?elem_of_app, ?list_elem_of_singleton in *; intuition congruence. }
    rewrite lookup_insert_eq, decide_True; [done|].
    rewrite elem_of_app, list_elem_of_singleton. auto.
  - assert (ComDetails_String x ≠ ComDetails_String cd)
      by (intros ?%ComDetails_String_inj; done).
    assert (Hin : cd ∈ l ++ [x] ↔ cd ∈ l).
    { rewrite elem_of_app, list_elem_of_singleton. intuition congruence. }
    assert (Hgoal : fold_left (mark_step_other m) l acc !! ComDetails_String cd
              = if decide (cd ∈ l ++ [x] ∧ Service cd ≠ "rpc.statd"
                           ∧ Contains m cd = false)
                then Some (-1) else acc !! ComDetails_String cd).
    { rewrite IH. repeat case_decide; try done;
        rewrite ?elem_of_app, ?list_elem_of_singleton in *; intuition congruence. }
    case_bool_decide; [done|].
    destruct (Contains m x); simpl; [done|]. by rewrite lookup_insert_ne.
Qed.

(** ** The diff report *)

Lemma fold_left_append {A : Type} (f : A → string) (l : list A) (init : string) :
  fold_left (λ diff x, diff +:+ f x) l init
  = init +:+ foldr (λ x rest, f x +:+ rest) EmptyString l.
Proof.
  revert init. induction l as [|x l IH]; intros init; simpl.
  - induction init as [|a init IHi]; [done|].
    change (String a init = String a (init +:+ EmptyString)). by rewrite <- IHi.
  - by rewrite IH, string_app_assoc.
Qed.

(** The report is the header followed by the lines of the records of the
    combined matrix, in the order of that matrix. *)
Lemma GenerateMatrixDiff_report (SortFunc : SortFunc_type) (room : nat)
    (m other : ComMatrix) :
  GenerateMatrixDiff SortFunc room m other
  = Ok (report_header
        +:+ foldr (λ cd rest, report_line SortFunc room m other cd +:+ rest)
              EmptyString (Matrix (combine SortFunc room m other).1)).
Proof.
  unfold GenerateMatrixDiff.
  change (getComMatrixHeadersByFormat FormatCSV) with
    (Ok (T := string)
       "Direction,Protocol,Port,Namespace,Service,Pod,Container,Node Role,Optional").
  simpl. rewrite fold_left_append. f_equal. f_equal.
  apply foldr_ext; [|done..]. intros cd rest.
  unfold report_line, diff_mark, diff_signs. by rewrite diff_line_mark.
Qed.

Lemma diff_mark_total (SortFunc : SortFunc_type) (room : nat)
    (m other : ComMatrix) (cd : ComDetails) :
  ∃ mk, diff_mark SortFunc room m other cd = Some mk.
Proof. apply mark_of_sign_total, markDiff_values. Qed.


(** The sign of a record, read off the two matrices, when the texts of the
    records tell them apart and [combine] leaves the receiver its records. *)
Lemma diff_sign_cases (SortFunc : SortFunc_type) (room : nat)
    (m other : ComMatrix) (cd : ComDetails) :
  SortFunc_contract SortFunc →
  fresh_records m other = [] ∨ (room < length (fresh_records m other))%nat →
  Forall (λ x, comma_free x = true) (Matrix m) →
  Forall (λ x, comma_free x = true) (Matrix other) →
  comma_free cd = true →
  sign_of (diff_signs SortFunc room m other) cd
  = if decide (cd ∈ Matrix other ∧ Service cd ≠ "rpc.statd" ∧ Contains m cd = false)
    then -1
    else if decide (cd ∈ Matrix m) then (if Contains other cd then 0 else 1)
    else 0.
Proof.
  intros Hok Hkept Hm Hother Hcd.
  pose proof (combine_receiver_kept SortFunc Hok room m other Hkept) as Hperm.
  unfold sign_of, diff_signs, markDiffBetweenMatrices.
  set (m' := (combine SortFunc room m other).2) in *.
  rewrite mark_other_lookup, mark_m_lookup, lookup_empty by (by rewrite ?Hperm).
  rewrite (Contains_Permutation m' m cd Hperm).
  repeat case_decide; try done; rewrite Hperm in *; tauto.
Qed.

(** The scenario of the specification: port 22 in both matrices, 6443 only
    in the first, 9999 only in the second. *)
Example diff_scenario :
  GenerateMatrixDiff insertionSortCmpFunc 0
    {| Matrix := [cd_sshd; cd_api] |}
    {| Matrix := [cd_sshd; flow "master" "TCP" 9999 "debug"] |}
  = Ok (report_header
        +:+ "Ingress,TCP,22,ns,sshd,pod,ctr,master,false" +:+ newline
        +:+ "+ Ingress,TCP,6443,ns,kube-apiserver,pod,ctr,master,false" +:+ newline
        +:+ "- Ingress,TCP,9999,ns,debug,pod,ctr,master,false" +:+ newline).
Proof. by vm_compute. Qed.

(** When the appended records fit into the spare cells of the receiver, the
    sort of [combine] rearranges the array the receiver shows: here the
    receiver shows the record of the other matrix afterwards, the signs are
    computed from that, and both lines come out unmarked. Without spare
    cells the lines get their minus and plus. *)
Example diff_with_spare_capacity :
  let m := {| Matrix := [cd_api] |} in
  let other := {| Matrix := [cd_sshd] |} in
  (combine insertionSortCmpFunc 1 m other).2 = {| Matrix := [cd_sshd] |}
  ∧ diff_mark insertionSortCmpFunc 1 m other cd_sshd = Some Unmarked
  ∧ diff_mark insertionSortCmpFunc 1 m other cd_api = Some Unmarked
  ∧ (combine insertionSortCmpFunc 0 m other).2 = m
  ∧ diff_mark insertionSortCmpFunc 0 m other cd_sshd = Some Minus
  ∧ diff_mark insertionSortCmpFunc 0 m other cd_api = Some Plus.
Proof. by vm_compute. Qed.

(** The same with three records against two: with one spare cell the record
    of port 80, which only the second matrix has, takes a cell of the
    receiver and the record of port 8080 leaves it, and the report marks
    neither; without spare cells they get their minus and plus. *)
Example diff_marks_lost_in_place :
  let m := {| Matrix := [cd_sshd; cd_api; flow "master" "TCP" 8080 "web"] |} in
  let other := {| Matrix := [cd_sshd; cd_http] |} in
  GenerateMatrixDiff insertionSortCmpFunc 1 m other
  = Ok (report_header
        +:+ "Ingress,TCP,22,ns,sshd,pod,ctr,master,false" +:+ newline
        +:+ "Ingress,TCP,80,ns,http,pod,ctr,master,false" +:+ newline
        +:+ "+ Ingress,TCP,6443,ns,kube-apiserver,pod,ctr,master,false" +:+ newline
        +:+ "Ingress,TCP,8080,ns,web,pod,ctr,master,false" +:+ newline)
  ∧ GenerateMatrixDiff insertionSortCmpFunc 0 m other
    = Ok (report_header
          +:+ "Ingress,TCP,22,ns,sshd,pod,ctr,master,false" +:+ newline
          +:+ "- Ingress,TCP,80,ns,http,pod,ctr,master,false" +:+ newline
          +:+ "+ Ingress,TCP,6443,ns,kube-apiserver,pod,ctr,master,false" +:+ newline
          +:+ "+ Ingress,TCP,8080,ns,web,pod,ctr,master,false" +:+ newline).
Proof. by vm_compute. Qed.




(** On a second matrix of records with comma-free text, no record of
    rpc.statd gets a minus, whatever the first matrix is and whatever
    [combine] leaves of it. *)
Lemma statd_never_minus (SortFunc : SortFunc_type) (room : nat)
    (m other : ComMatrix) (cd : ComDetails) :
  Forall (λ x, comma_free x = true) (Matrix other) →
  cd ∈ Matrix other → Service cd = "rpc.statd" →
  diff_mark SortFunc room m other cd ≠ Some Minus.
Proof.
  intros Hother Hcd Hsvc Hminus. rewrite Forall_forall in Hother.
  unfold diff_mark, diff_signs, sign_of, markDiffBetweenMatrices in Hminus.
  destruct (fold_left _ _ _ !! ComDetails_String cd) as [v|] eqn:E; [|done].
  simpl in Hminus.
  apply mark_other_values in E as [E|(_ & b & Hb & Hbsvc & _ & Htext)].
  - apply mark_m_values in E as [E|[->| ->]]; [|done..].
    by rewrite lookup_empty in E.
  - apply ComDetails_String_inj in Htext; auto. congruence.
Qed.

(** C9, at a failing input: a record of rpc.statd that only the second
    matrix has gets a minus when another record of that matrix, of another
    identity, prints the same text; the map of signs is keyed by the text
    of the records. *)
Theorem statd_marked_minus (SortFunc : SortFunc_type) (room : nat) :
  SortFunc_contract SortFunc →
  let m := {| Matrix := [] |} in
  let other := {| Matrix := [cd_statd_comma; cd_comma_twin] |} in
  Service cd_statd_comma = "rpc.statd"
  ∧ cd_statd_comma ∈ Matrix other
  ∧ ¬ has_identity m cd_statd_comma
  ∧ identity cd_statd_comma ≠ identity cd_comma_twin
  ∧ ComDetails_String cd_statd_comma = ComDetails_String cd_comma_twin
  ∧ cd_statd_comma ∈ Matrix (combine SortFunc room m other).1
  ∧ diff_mark SortFunc room m other cd_statd_comma = Some Minus.
Proof.
  intros Hok m other.
  split; [done|]. split; [left|]. split; [by intros (x & ?%elem_of_nil & _)|].
  split; [by vm_compute|]. split; [by vm_compute|]. split.
  - apply (combine_elem SortFunc Hok). right. split; [left|done].
  - unfold diff_mark, diff_signs. rewrite combine_receiver.
    assert (Hm : {| Matrix := take (length (Matrix m))
                     (Matrix (combine SortFunc room m other).1) |} = m) by done.
    rewrite Hm. by case_decide.
Qed.

Lemma statd_marked_minus_witness :
  SortFunc_contract insertionSortCmpFunc
  ∧ (let m := {| Matrix := [] |} in
     let other := {| Matrix := [cd_statd_comma; cd_comma_twin] |} in
     Service cd_statd_comma = "rpc.statd"
     ∧ cd_statd_comma ∈ Matrix other
     ∧ ¬ has_identity m cd_statd_comma
     ∧ identity cd_statd_comma ≠ identity cd_comma_twin
     ∧ ComDetails_String cd_statd_comma = ComDetails_String cd_comma_twin
     ∧ cd_statd_comma ∈ Matrix (combine insertionSortCmpFunc 0 m other).1
     ∧ diff_mark insertionSortCmpFunc 0 m other cd_statd_comma = Some Minus).
Proof.
  split; [exact insertionSortCmpFunc_contract|].
  exact (statd_marked_minus insertionSortCmpFunc 0 insertionSortCmpFunc_contract).
Defined.

(** ** Exporters *)

(** C5, as stated, fails: the tag nft is not one of csv, json, yaml and
    nft-firewall, and export succeeds for it. *)
Lemma export_not_closed_over_listed : ¬ export_closed_over listed_formats.
Proof.
  intros Hclaim.
  destruct (Hclaim silent_encoders {| Matrix := [] |} "nft") as [_ Hfail].
  destruct Hfail as [msg Hmsg]; [|done].
  unfold listed_formats. rewrite !elem_of_cons, elem_of_nil.
  by intros [|[|[|[|]]]].
Qed.

Lemma print_cases (enc : Encoders) (m : ComMatrix) (format : string) :
  (∀ out, print enc m format = Ok out → format ∈ supported_formats)
  ∧ (format ∉ supported_formats →
     print enc m format
     = Err ("invalid format: " +:+ format
            +:+ ". Please specify json, csv, yaml, or nft")).
Proof.
  assert (Hin : format ∈ supported_formats
                ↔ format = FormatCSV ∨ format = FormatJSON
                  ∨ format = FormatYAML ∨ format = FormatNFT).
  { unfold supported_formats. rewrite !elem_of_cons, elem_of_nil. tauto. }
  rewrite Hin. unfold print.
  repeat case_bool_decide; split; try done; tauto.
Qed.

(** C5, amended: export succeeds only for the tags csv, json, yaml and nft,
    and fails with the invalid-format error, which names the tag, for every
    other tag. *)
Theorem print_formats :
  export_closed_over supported_formats
  ∧ ∀ (enc : Encoders) (m : ComMatrix) (format : string),
      format ∉ supported_formats →
      print enc m format
      = Err ("invalid format: " +:+ format
             +:+ ". Please specify json, csv, yaml, or nft").
Proof.
  split.
  - intros enc m format. destruct (print_cases enc m format) as [Hok Herr].
    split; [done|]. intros Hnot. rewrite (Herr Hnot). eauto.
  - intros enc m format. apply print_cases.
Qed.

Lemma print_formats_witness :
  (print silent_encoders {| Matrix := [cd_http] |} "json" = Ok EmptyString
   ∧ "json" ∈ supported_formats)
  ∧ (("nft-firewall" ∉ supported_formats)
     ∧ print silent_encoders {| Matrix := [cd_http] |} "nft-firewall"
       = Err ("invalid format: " +:+ "nft-firewall"
              +:+ ". Please specify json, csv, yaml, or nft")).
Proof.
  assert (Hout : print silent_encoders {| Matrix := [cd_http] |} "json"
                 = Ok EmptyString) by reflexivity.
  assert (Hnot : "nft-firewall" ∉ supported_formats).
  { unfold supported_formats. rewrite !elem_of_cons, elem_of_nil.
    by intros [|[|[|[|]]]]. }
  exact (conj
    (conj Hout
       (proj1 (proj1 print_formats silent_encoders {| Matrix := [cd_http] |}
                 "json") EmptyString Hout))
    (conj Hnot
       (proj2 print_formats silent_encoders {| Matrix := [cd_http] |}
          "nft-firewall" Hnot))).
Defined.

Lemma ToNFTables_fold (l : list ComDetails) (tcpPorts udpPorts : list string) :
  fold_left ToNFTables_step l (tcpPorts, udpPorts)
  = (tcpPorts ++ ports_of "TCP" l, udpPorts ++ ports_of "UDP" l).
Proof.
  revert tcpPorts udpPorts. unfold ports_of.
  induction l as [|line l IH]; intros tcpPorts udpPorts; simpl.
  - by rewrite !app_nil_r.
  - rewrite !filter_cons. repeat case_bool_decide.
    + rewrite decide_True, decide_False by congruence.
      by rewrite IH, <- app_assoc.
    + rewrite decide_False, decide_True by done.
      by rewrite IH, <- app_assoc.
    + rewrite !decide_False by done. apply IH.
Qed.

(** A record whose protocol is neither of the two exact names adds nothing
    to the rules. *)
Lemma ToNFTables_omits (l1 l2 : list ComDetails) (cd : ComDetails) :
  Protocol cd ≠ "TCP" → Protocol cd ≠ "UDP" →
  ToNFTables {| Matrix := l1 ++ cd :: l2 |} = ToNFTables {| Matrix := l1 ++ l2 |}.
Proof.
  intros Htcp Hudp. unfold ToNFTables. simpl. rewrite !ToNFTables_fold.
  unfold ports_of. rewrite !filter_app, !filter_cons.
  by rewrite !decide_False by done.
Qed.

(** C6, at the failing input: the rules for one record of TCP port 80 and
    one of UDP port 53 have the text for UDP as the claim gives it, and the
    text for TCP with two spaces after dport, not one. *)
Theorem ToNFTables_tcp_spacing :
  ∃ rules, ToNFTables {| Matrix := [cd_http; cd_dns] |} = Ok rules
    ∧ strings_Contains rules "udp dport { 53 }" = true
    ∧ strings_Contains rules "tcp dport { 80 }" = false
    ∧ strings_Contains rules "tcp dport  { 80 }" = true.
Proof. eexists. split; [reflexivity|]. by vm_compute. Qed.

(** * Further properties of the package *)

(** ** Identity, text and membership *)

(** X1: on records whose port is not negative and whose protocol has no
    dash, [Equals] holds exactly when the records agree on nodeRole, port
    and protocol. *)
Theorem Equals_plain_identity (cd other : ComDetails) :
  plain_identity cd = true → plain_identity other = true →
  Equals cd other = true
  ↔ NodeRole cd = NodeRole other ∧ Port cd = Port other
    ∧ Protocol cd = Protocol other.
Proof.
  intros Hcd Hother. rewrite (Equals_iff_identity cd other Hcd Hother).
  unfold identity. split; [by intros [= -> -> ->]|by intros (-> & -> & ->)].
Qed.

Lemma Equals_plain_identity_witness :
  plain_identity cd_sshd = true ∧ plain_identity cd_api = true
  ∧ (Equals cd_sshd cd_api = true
     ↔ NodeRole cd_sshd = NodeRole cd_api ∧ Port cd_sshd = Port cd_api
       ∧ Protocol cd_sshd = Protocol cd_api).
Proof.
  exact (conj eq_refl (conj eq_refl
           (Equals_plain_identity cd_sshd cd_api eq_refl eq_refl))).
Defined.

(** X2: the text [ComDetails.String] prints determines the record, when the
    text fields of the records have no comma. *)
Theorem ComDetails_String_determines (cd other : ComDetails) :
  comma_free cd = true → comma_free other = true →
  ComDetails_String cd = ComDetails_String other ↔ cd = other.
Proof.
  intros Hcd Hother. split; [by apply ComDetails_String_inj|by intros ->].
Qed.

Lemma ComDetails_String_determines_witness :
  comma_free cd_sshd = true ∧ comma_free cd_ssh_proxy = true
  ∧ (ComDetails_String cd_sshd = ComDetails_String cd_ssh_proxy
     ↔ cd_sshd = cd_ssh_proxy).
Proof.
  exact (conj eq_refl (conj eq_refl
           (ComDetails_String_determines cd_sshd cd_ssh_proxy eq_refl eq_refl))).
Defined.

Lemma Equals_trans (a b c : ComDetails) :
  Equals a b = true → Equals b c = true → Equals a c = true.
Proof. rewrite !Equals_key. congruence. Qed.

Lemma Contains_Equals (m : ComMatrix) (cd cd' : ComDetails) :
  Equals cd cd' = true → Contains m cd = Contains m cd'.
Proof.
  intros Heq. apply eq_true_iff_eq. rewrite !Contains_spec.
  split; intros (x & Hx & Hxe); exists x; (split; [done|]).
  - by eapply Equals_trans.
  - eapply Equals_trans; [done|]. by rewrite Equals_sym.
Qed.

(** X3: whether a matrix contains a record depends on the record only up to
    [Equals], and on the matrix only up to the order of its records; every
    record of the matrix is contained, and the empty matrix contains none. *)
Theorem Contains_membership (m : ComMatrix) (cd : ComDetails) :
  (∀ cd', Equals cd cd' = true → Contains m cd = Contains m cd')
  ∧ (∀ m', Matrix m ≡ₚ Matrix m' → Contains m cd = Contains m' cd)
  ∧ (cd ∈ Matrix m → Contains m cd = true)
  ∧ Contains {| Matrix := [] |} cd = false.
Proof.
  split; [intros cd'; apply Contains_Equals|].
  split; [intros m'; apply Contains_Permutation|].
  split; [apply Contains_elem|done].
Qed.

Lemma Contains_membership_witness :
  let m := {| Matrix := [cd_api; cd_sshd] |} in
  Equals cd_ssh_proxy cd_sshd = true
  ∧ Matrix m ≡ₚ [cd_sshd; cd_api]
  ∧ cd_sshd ∈ Matrix m
  ∧ Contains m cd_ssh_proxy = Contains m cd_sshd
  ∧ Contains m cd_ssh_proxy = Contains {| Matrix := [cd_sshd; cd_api] |} cd_ssh_proxy
  ∧ Contains m cd_sshd = true.
Proof.
  intros m.
  assert (Hperm : Matrix m ≡ₚ [cd_sshd; cd_api]) by apply Permutation_swap.
  assert (Hin : cd_sshd ∈ Matrix m) by (right; left).
  pose (H := Contains_membership m cd_ssh_proxy).
  exact (conj eq_refl (conj Hperm (conj Hin
    (conj (proj1 H cd_sshd eq_refl)
       (conj (proj1 (proj2 H) {| Matrix := [cd_sshd; cd_api] |} Hperm)
          (proj1 (proj2 (proj2 (Contains_membership m cd_sshd))) Hin)))))).
Defined.

(** ** Normalisation *)

Lemma first_of_each_key_sublist (seen : gmap string bool) (l : list ComDetails) :
  first_of_each_key seen l `sublist_of` l.
Proof.
  revert seen. induction l as [|item l IH]; intros seen; simpl; [done|].
  destruct (seen !! identity_key item).
  - by apply sublist_cons.
  - by apply sublist_skip.
Qed.

Lemma deleteDuplicates_Contains (m : ComMatrix) (cd : ComDetails) :
  Contains (deleteDuplicates m) cd = Contains m cd.
Proof.
  apply eq_true_iff_eq. rewrite !Contains_spec, deleteDuplicates_first.
  pose proof (first_of_each_key_filter (identity_key cd) ∅ (Matrix m)) as Hf.
  rewrite lookup_empty in Hf. split; intros (x & Hx & Hxe).
  - exists x. split; [|done].
    eapply elem_of_sublist; [done|apply first_of_each_key_sublist].
  - apply Equals_key in Hxe.
    assert (Hin : x ∈ filter (λ y, identity_key y = identity_key cd) (Matrix m))
      by by apply list_elem_of_filter.
    destruct (filter (λ y, identity_key y = identity_key cd) (Matrix m))
      as [|y ys] eqn:E; [by apply elem_of_nil in Hin|].
    assert (Hy : y ∈ filter (λ y, identity_key y = identity_key cd)
                       (first_of_each_key ∅ (Matrix m)))
      by (rewrite Hf; simpl; rewrite take_0; left).
    apply list_elem_of_filter in Hy as [Hykey Hy].
    exists y. split; [done|]. by apply Equals_key.
Qed.

Lemma NoDup_keys_identity (l : list ComDetails) :
  NoDup (identity_key <$> l) → identity_free_of_duplicates l.
Proof.
  intros Hnd. unfold identity_free_of_duplicates.
  apply (NoDup_fmap_1 (λ i : string * Z * string,
           i.1.1 +:+ "-" +:+ Sprint_int i.1.2 +:+ "-" +:+ i.2)).
  by rewrite <- list_fmap_compose.
Qed.

(** X4: [deleteDuplicates] keeps a subsequence of the matrix - no record is
    changed, added or moved - in which no identity occurs twice; the matrix
    contains the same records, in the sense of [Contains], before and after;
    and a second run changes nothing. *)
Theorem deleteDuplicates_keeps (m : ComMatrix) :
  Matrix (deleteDuplicates m) `sublist_of` Matrix m
  ∧ identity_free_of_duplicates (Matrix (deleteDuplicates m))
  ∧ (∀ cd, Contains (deleteDuplicates m) cd = Contains m cd)
  ∧ deleteDuplicates (deleteDuplicates m) = deleteDuplicates m.
Proof.
  split; [rewrite deleteDuplicates_first; apply first_of_each_key_sublist|].
  split; [apply NoDup_keys_identity, deleteDuplicates_NoDup|].
  split; [apply deleteDuplicates_Contains|].
  apply deleteDuplicates_id, deleteDuplicates_NoDup.
Qed.

(** Two matrices in order with the same records, none of which share a
    key, are the same matrix. *)
Lemma sorted_unique (l1 l2 : list ComDetails) :
  NoDup (identity_key <$> l1) → l1 ≡ₚ l2 →
  Sorted key_le l1 → Sorted key_le l2 → l1 = l2.
Proof.
  intros Hnd Hperm Hs1 Hs2.
  assert (Transitive key_le) by (intros ???; apply key_le_trans).
  apply (Sorted_unique_strong key_le); [|done..].
  intros x1 x2 Hx1 Hx2 H12 H21. rewrite <- Hperm in Hx2.
  pose proof (key_le_antisym _ _ H12 H21) as Hid.
  apply Equals_same_identity, Equals_key in Hid.
  apply list_elem_of_lookup in Hx1 as [i Hi], Hx2 as [j Hj].
  assert (i = j) as ->; [|congruence].
  eapply NoDup_lookup; [exact Hnd|..]; rewrite list_lookup_fmap.
  - by rewrite Hi.
  - rewrite Hj. simpl. by rewrite Hid.
Qed.

(** X5: after [CleanComDetails] the matrix is in ascending order by
    (nodeRole, protocol, port), no identity occurs twice, it has no more
    records than before, and it contains the same records, in the sense of
    [Contains], as before. *)
Theorem CleanComDetails_normal_form (SortFunc : SortFunc_type) (m : ComMatrix) :
  SortFunc_contract SortFunc →
  StronglySorted key_le (Matrix (CleanComDetails SortFunc m))
  ∧ identity_free_of_duplicates (Matrix (CleanComDetails SortFunc m))
  ∧ (length (Matrix (CleanComDetails SortFunc m)) ≤ length (Matrix m))%nat
  ∧ ∀ cd, Contains (CleanComDetails SortFunc m) cd = Contains m cd.
Proof.
  intros Hok. unfold CleanComDetails.
  pose proof (sort_Permutation SortFunc Hok (deleteDuplicates m)) as Hperm.
  assert (Transitive key_le) by (intros ???; apply key_le_trans).
  split; [by apply Sorted_StronglySorted, sort_Sorted|].
  split.
  { apply NoDup_keys_identity. rewrite Hperm. apply deleteDuplicates_NoDup. }
  split.
  { rewrite Hperm, deleteDuplicates_first.
    apply sublist_length, first_of_each_key_sublist. }
  intros cd. rewrite <- (deleteDuplicates_Contains m cd).
  by apply Contains_Permutation.
Qed.

Lemma CleanComDetails_normal_form_witness :
  let m := {| Matrix := [cd_dns; cd_ssh_proxy; cd_api; cd_sshd; cd_dns] |} in
  SortFunc_contract insertionSortCmpFunc
  ∧ StronglySorted key_le (Matrix (CleanComDetails insertionSortCmpFunc m))
  ∧ identity_free_of_duplicates (Matrix (CleanComDetails insertionSortCmpFunc m))
  ∧ (length (Matrix (CleanComDetails insertionSortCmpFunc m))
     ≤ length (Matrix m))%nat
  ∧ ∀ cd, Contains (CleanComDetails insertionSortCmpFunc m) cd = Contains m cd.
Proof.
  intros m.
  exact (conj insertionSortCmpFunc_contract
           (CleanComDetails_normal_form insertionSortCmpFunc m
              insertionSortCmpFunc_contract)).
Defined.

(** X6: the result of [CleanComDetails] does not depend on how the library
    sort treats ties: any two sorts within the contract of [slices.SortFunc]
    give the same matrix. *)
Theorem CleanComDetails_sort_independent (SortFunc1 SortFunc2 : SortFunc_type)
    (m : ComMatrix) :
  SortFunc_contract SortFunc1 → SortFunc_contract SortFunc2 →
  CleanComDetails SortFunc1 m = CleanComDetails SortFunc2 m.
Proof.
  intros Hok1 Hok2. unfold CleanComDetails.
  pose proof (sort_Permutation SortFunc1 Hok1 (deleteDuplicates m)) as Hperm1.
  pose proof (sort_Permutation SortFunc2 Hok2 (deleteDuplicates m)) as Hperm2.
  pose proof (sort_Sorted SortFunc1 Hok1 (deleteDuplicates m)) as Hs1.
  pose proof (sort_Sorted SortFunc2 Hok2 (deleteDuplicates m)) as Hs2.
  destruct (sort SortFunc1 (deleteDuplicates m)) as [l1] eqn:E1.
  destruct (sort SortFunc2 (deleteDuplicates m)) as [l2] eqn:E2.
  simpl in *. f_equal. apply sorted_unique; [|by rewrite Hperm1, Hperm2|done..].
  rewrite Hperm1. apply deleteDuplicates_NoDup.
Qed.

Lemma CleanComDetails_sort_independent_witness :
  let m := {| Matrix := [cd_dns; cd_ssh_proxy; cd_api; cd_sshd] |} in
  SortFunc_contract insertionSortCmpFunc
  ∧ SortFunc_contract insertionSortFromEnd
  ∧ CleanComDetails insertionSortCmpFunc m = CleanComDetails insertionSortFromEnd m.
Proof.
  intros m.
  exact (conj insertionSortCmpFunc_contract (conj insertionSortFromEnd_contract
           (CleanComDetails_sort_independent insertionSortCmpFunc
              insertionSortFromEnd m insertionSortCmpFunc_contract
              insertionSortFromEnd_contract))).
Defined.

(** X7: on a matrix of records whose port is not negative and whose
    protocol has no dash, [CleanComDetails] keeps of the records of every
    identity the first one of the input, and only that one. *)
Theorem CleanComDetails_first_wins (SortFunc : SortFunc_type) (m : ComMatrix)
    (cd : ComDetails) :
  SortFunc_contract SortFunc →
  Forall (λ x, plain_identity x = true) (Matrix m) → plain_identity cd = true →
  same_identity cd (Matrix (CleanComDetails SortFunc m))
  = take 1 (same_identity cd (Matrix m)).
Proof. apply CleanComDetails_first_plain. Qed.

Lemma CleanComDetails_first_wins_witness :
  let m := {| Matrix := [cd_dns; cd_ssh_proxy; cd_api; cd_sshd] |} in
  SortFunc_contract insertionSortCmpFunc
  ∧ Forall (λ x, plain_identity x = true) (Matrix m)
  ∧ plain_identity cd_sshd = true
  ∧ same_identity cd_sshd (Matrix (CleanComDetails insertionSortCmpFunc m))
    = take 1 (same_identity cd_sshd (Matrix m)).
Proof.
  intros m.
  assert (Hm : Forall (λ x, plain_identity x = true) (Matrix m))
    by repeat constructor.
  exact (conj insertionSortCmpFunc_contract (conj Hm (conj eq_refl
           (CleanComDetails_first_wins insertionSortCmpFunc m cd_sshd
              insertionSortCmpFunc_contract Hm eq_refl)))).
Defined.

(** ** [Diff] and [combine] *)

Lemma filter_nil_Forall {A : Type} (P : A → Prop) `{!∀ x, Decision (P x)}
    (l : list A) :
  filter P l = [] ↔ Forall (λ x, ¬ P x) l.
Proof.
  induction l as [|x l IH]; [by split|]. rewrite filter_cons, Forall_cons.
  case_decide; [|by rewrite IH; tauto].
  split; [done|]. tauto.
Qed.

Lemma filter_all {A : Type} (P : A → Prop) `{!∀ x, Decision (P x)}
    (l : list A) :
  Forall P l → filter P l = l.
Proof.
  induction 1 as [|x l Hx _ IH]; [done|].
  by rewrite filter_cons, decide_True, IH.
Qed.

Lemma Diff_found_Contains (other : ComMatrix) (cd : ComDetails) :
  Diff_found other cd = Contains other cd.
Proof.
  unfold Diff_found, Contains. induction (Matrix other) as [|cd2 l IH]; [done|].
  by rewrite IH, (Equals_sym cd cd2).
Qed.

(** The loops of [Diff] select the records the other matrix does not
    contain. *)
Lemma Diff_filter (m other : ComMatrix) :
  Matrix (Diff m other) = filter (λ cd, Contains other cd = false) (Matrix m).
Proof.
  unfold Diff. simpl.
  assert (Hfold : ∀ l acc,
    fold_left (λ diff cd1, if negb (Diff_found other cd1) then diff ++ [cd1]
                           else diff) l acc
    = acc ++ filter (λ cd, Contains other cd = false) l).
  { induction l as [|cd l IH]; intros acc; simpl; [by rewrite app_nil_r|].
    rewrite IH, filter_cons, Diff_found_Contains.
    destruct (Contains other cd); simpl; [done|].
    by rewrite <- app_assoc. }
  apply Hfold.
Qed.

Lemma Diff_Contains (m other : ComMatrix) (cd : ComDetails) :
  Contains (Diff m other) cd = Contains m cd && negb (Contains other cd).
Proof.
  apply eq_true_iff_eq.
  rewrite andb_true_iff, negb_true_iff, !Contains_spec, Diff_filter. split.
  - intros (x & [Hfresh Hx]%list_elem_of_filter & Heq). split; [eauto|].
    by rewrite <- (Contains_Equals other x cd).
  - intros [(x & Hx & Heq) Hfresh]. exists x. split; [|done].
    apply list_elem_of_filter. split; [|done].
    by rewrite (Contains_Equals other x cd).
Qed.

(** X8: [Diff] returns the records of the matrix that the other matrix does
    not contain, in their order and unchanged; as to [Contains] it is the
    set difference of the two matrices. *)
Theorem Diff_difference (m other : ComMatrix) :
  Matrix (Diff m other) `sublist_of` Matrix m
  ∧ (∀ cd, cd ∈ Matrix (Diff m other)
           ↔ cd ∈ Matrix m ∧ Contains other cd = false)
  ∧ (∀ cd, Contains (Diff m other) cd
           = Contains m cd && negb (Contains other cd)).
Proof.
  split; [rewrite Diff_filter; apply sublist_filter|].
  split; [|apply Diff_Contains].
  intros cd. rewrite Diff_filter, list_elem_of_filter. tauto.
Qed.

(** X9: the difference of a matrix with itself is empty, with the empty
    matrix it is the matrix, a difference taken twice is the difference
    taken once, and the difference is empty exactly when the other matrix
    contains every record. *)
Theorem Diff_edge_cases (m other : ComMatrix) :
  Matrix (Diff m m) = []
  ∧ Diff m {| Matrix := [] |} = m
  ∧ Diff (Diff m other) other = Diff m other
  ∧ (Matrix (Diff m other) = []
     ↔ ∀ cd, cd ∈ Matrix m → Contains other cd = true).
Proof.
  assert (Hext : ∀ a b : ComMatrix, Matrix a = Matrix b → a = b).
  { intros [a] [b]; simpl. by intros ->. }
  split; [|split; [|split]].
  - rewrite Diff_filter. apply filter_nil_Forall, Forall_forall.
    intros cd Hcd. by rewrite (Contains_elem m cd Hcd).
  - apply Hext. rewrite Diff_filter. apply filter_all, Forall_forall. done.
  - apply Hext. rewrite !Diff_filter, list_filter_filter.
    apply list_filter_iff. tauto.
  - rewrite Diff_filter, filter_nil_Forall, Forall_forall.
    split; intros H cd Hcd; specialize (H cd Hcd);
      by destruct (Contains other cd).
Qed.

(** X10: the matrix [combine] returns has the records of the receiver and
    the records of [other.Diff(m)], each as often as there; so it has at
    least the records of the receiver and at most those of both. *)
Theorem combine_Diff (SortFunc : SortFunc_type) (room : nat) (m other : ComMatrix) :
  SortFunc_contract SortFunc →
  Matrix (combine SortFunc room m other).1 ≡ₚ Matrix m ++ Matrix (Diff other m)
  ∧ (length (Matrix m) ≤ length (Matrix (combine SortFunc room m other).1)
     ≤ length (Matrix m) + length (Matrix other))%nat.
Proof.
  intros Hok.
  assert (Hperm : Matrix (combine SortFunc room m other).1
                  ≡ₚ Matrix m ++ Matrix (Diff other m)).
  { rewrite Diff_filter. by apply combine_Permutation. }
  split; [done|]. rewrite Hperm, length_app.
  pose proof (sublist_length _ _ (proj1 (Diff_difference other m))). lia.
Qed.

Lemma combine_Diff_witness :
  let m := {| Matrix := [cd_api; cd_sshd] |} in
  let other := {| Matrix := [cd_dns; cd_ssh_proxy] |} in
  SortFunc_contract insertionSortCmpFunc
  ∧ Matrix (combine insertionSortCmpFunc 0 m other).1
    ≡ₚ Matrix m ++ Matrix (Diff other m)
  ∧ (length (Matrix m)
     ≤ length (Matrix (combine insertionSortCmpFunc 0 m other).1)
     ≤ length (Matrix m) + length (Matrix other))%nat.
Proof.
  intros m other.
  exact (conj insertionSortCmpFunc_contract
           (combine_Diff insertionSortCmpFunc 0 m other
              insertionSortCmpFunc_contract)).
Defined.

Lemma combine_contained (SortFunc : SortFunc_type) (room : nat)
    (m other : ComMatrix) :
  (∀ cd, cd ∈ Matrix other → Contains m cd = true) →
  fresh_records m other = []
  ∧ (combine SortFunc room m other).1 = sort SortFunc m.
Proof.
  intros Hall.
  assert (Hnil : fresh_records m other = []).
  { apply filter_nil_Forall, Forall_forall. intros cd Hcd.
    by rewrite (Hall cd Hcd). }
  split; [done|]. rewrite combine_value, Hnil, app_nil_r. by destruct m.
Qed.

(** X11: when the receiver contains every record of the other matrix -
    when the other matrix is empty, or is the receiver itself - [combine]
    returns the receiver sorted. *)
Theorem combine_absorbs (SortFunc : SortFunc_type) (room : nat)
    (m other : ComMatrix) :
  (∀ cd, cd ∈ Matrix other → Contains m cd = true) →
  (combine SortFunc room m other).1 = sort SortFunc m.
Proof. intros Hall. by apply combine_contained. Qed.

Lemma combine_absorbs_witness :
  let m := {| Matrix := [cd_api; cd_sshd] |} in
  (∀ cd, cd ∈ Matrix m → Contains m cd = true)
  ∧ (combine insertionSortCmpFunc 3 m m).1 = sort insertionSortCmpFunc m.
Proof.
  intros m.
  assert (Hall : ∀ cd, cd ∈ Matrix m → Contains m cd = true)
    by apply Contains_elem.
  exact (conj Hall (combine_absorbs insertionSortCmpFunc 3 m m Hall)).
Defined.

(** X12: what [combine] does to its receiver. The receiver keeps the number
    of its records. When the records to append do not fit into the unused
    capacity of its slice, it is left as it was. When they fit, the receiver
    shows afterwards the first of the records of the combined matrix, as
    many as it had: the sort has run inside its backing array. *)
Theorem combine_receiver_after (SortFunc : SortFunc_type) (room : nat)
    (m other : ComMatrix) :
  SortFunc_contract SortFunc →
  length (Matrix (combine SortFunc room m other).2) = length (Matrix m)
  ∧ ((room < length (Matrix (Diff other m)))%nat →
     (combine SortFunc room m other).2 = m)
  ∧ ((length (Matrix (Diff other m)) ≤ room)%nat →
     Matrix (combine SortFunc room m other).2
     = take (length (Matrix m)) (Matrix (combine SortFunc room m other).1)).
Proof.
  intros Hok. rewrite combine_receiver, Diff_filter.
  fold (fresh_records m other).
  pose proof (combine_Permutation SortFunc Hok room m other) as Hperm.
  apply Permutation_length in Hperm. rewrite length_app in Hperm.
  split; [|split].
  - case_decide; [|done]. cbn [Matrix]. rewrite length_take. lia.
  - intros Hlt. by rewrite decide_False by lia.
  - intros Hle. by rewrite decide_True.
Qed.

Lemma combine_receiver_after_witness :
  let m := {| Matrix := [cd_api] |} in
  let other := {| Matrix := [cd_sshd] |} in
  SortFunc_contract insertionSortCmpFunc
  ∧ (0 < length (Matrix (Diff other m)))%nat
  ∧ (length (Matrix (Diff other m)) ≤ 1)%nat
  ∧ (combine insertionSortCmpFunc 0 m other).2 = m
  ∧ Matrix (combine insertionSortCmpFunc 1 m other).2
    = take (length (Matrix m)) (Matrix (combine insertionSortCmpFunc 1 m other).1)
  ∧ length (Matrix (combine insertionSortCmpFunc 1 m other).2) = length (Matrix m).
Proof.
  intros m other.
  assert (H0 : (0 < length (Matrix (Diff other m)))%nat) by (vm_compute; lia).
  assert (H1 : (length (Matrix (Diff other m)) ≤ 1)%nat) by (vm_compute; lia).
  pose (R0 := combine_receiver_after insertionSortCmpFunc 0 m other
                insertionSortCmpFunc_contract).
  pose (R1 := combine_receiver_after insertionSortCmpFunc 1 m other
                insertionSortCmpFunc_contract).
  exact (conj insertionSortCmpFunc_contract (conj H0 (conj H1
           (conj (proj1 (proj2 R0) H0)
              (conj (proj2 (proj2 R1) H1) (proj1 R1)))))).
Defined.

(** ** The diff report, further *)

Lemma report_line_mark (SortFunc : SortFunc_type) (room : nat)
    (m other : ComMatrix) (cd : ComDetails) :
  ∃ mk, report_line SortFunc room m other cd
        = mark_text mk +:+ ComDetails_String cd +:+ newline.
Proof.
  unfold report_line.
  destruct (diff_mark_total SortFunc room m other cd) as [mk ->]. eauto.
Qed.

(** X13: [GenerateMatrixDiff] never fails. Its report is the header line
    followed by one line for every record of the combined matrix, in the
    order of that matrix; each line is the text of the record after a plus,
    a minus or nothing, and ends with a line feed. *)
Theorem GenerateMatrixDiff_lines (SortFunc : SortFunc_type) (room : nat)
    (m other : ComMatrix) :
  ∃ marks : list mark,
    length marks = length (Matrix (combine SortFunc room m other).1)
    ∧ GenerateMatrixDiff SortFunc room m other
      = Ok (report_header
            +:+ foldr (λ line rest,
                         (mark_text line.1 +:+ ComDetails_String line.2
                          +:+ newline) +:+ rest)
                  EmptyString
                  (zip marks (Matrix (combine SortFunc room m other).1))).
Proof.
  rewrite GenerateMatrixDiff_report.
  induction (Matrix (combine SortFunc room m other).1) as [|cd l IH].
  - by exists [].
  - destruct IH as (marks & Hlen & [= IH]).
    destruct (report_line_mark SortFunc room m other cd) as [mk Hmk].
    exists (mk :: marks). split; [simpl; by rewrite Hlen|].
    apply String.app_inj in IH. simpl. by rewrite Hmk, IH.
Qed.

Lemma mark_m_one (other : ComMatrix) (l : list ComDetails)
    (acc : gmap string Z) (k : string) :
  fold_left (mark_step_m other) l acc !! k = Some 1 →
  acc !! k = Some 1 ∨ ∃ x, x ∈ l ∧ Contains other x = false.
Proof.
  induction l as [|x l IH] using rev_ind; [by left|].
  rewrite fold_left_snoc. unfold mark_step_m at 1.
  assert (Hprev : fold_left (mark_step_m other) l acc !! k = Some 1 →
            acc !! k = Some 1 ∨ ∃ y, y ∈ l ++ [x] ∧ Contains other y = false).
  { intros [?|(y & Hy & ?)]%IH; [by left|right].
    exists y. rewrite elem_of_app. auto. }
  destruct (Contains other x) eqn:Hc;
    destruct (decide (ComDetails_String x = k)) as [Heq|Hne];
    rewrite ?Heq, ?lookup_insert_eq, ?lookup_insert_ne by done; try done.
  intros _. right. exists x.
  rewrite elem_of_app, list_elem_of_singleton. auto.
Qed.

Lemma fold_left_from_empty {A : Type} (f : A → string) (l : list A) (init : string) :
  fold_left (λ text x, text +:+ f x) l init
  = init +:+ fold_left (λ text x, text +:+ f x) l EmptyString.
Proof. by rewrite (fold_left_append f l init), (fold_left_append f l EmptyString). Qed.

(** X14: the diff of a matrix with itself, or with any matrix that has the
    same records in another order, marks nothing: the report is the header
    followed by [String()] of the sorted matrix. *)
Theorem GenerateMatrixDiff_same (SortFunc : SortFunc_type) (room : nat)
    (m other : ComMatrix) :
  SortFunc_contract SortFunc → Matrix other ≡ₚ Matrix m →
  GenerateMatrixDiff SortFunc room m other
  = Ok (report_header +:+ ComMatrix_String (sort SortFunc m)).
Proof.
  intros Hok Hsame.
  assert (Hall : ∀ cd, cd ∈ Matrix other → Contains m cd = true).
  { intros cd Hcd. apply Contains_elem. by rewrite <- Hsame. }
  destruct (combine_contained SortFunc room m other Hall) as [Hfresh Hvalue].
  pose proof (combine_receiver_kept SortFunc Hok room m other (or_introl Hfresh))
    as Hkept.
  assert (Hzero : ∀ k v,
    markDiffBetweenMatrices (combine SortFunc room m other).2 other !! k = Some v →
    v = 0).
  { intros k v. unfold markDiffBetweenMatrices.
    intros [Hm|(_ & b & Hb & _ & Hc & _)]%mark_other_values.
    - destruct (mark_m_values _ _ _ _ _ Hm) as [Hempty|[->| ->]];
        [by rewrite lookup_empty in Hempty|done|].
      apply mark_m_one in Hm as [Hempty|(x & Hx & Hc)];
        [by rewrite lookup_empty in Hempty|].
      rewrite Hkept, <- Hsame in Hx.
      by rewrite (Contains_elem other x Hx) in Hc.
    - rewrite Hsame, <- Hkept in Hb.
      by rewrite (Contains_elem _ b Hb) in Hc. }
  assert (Hline : ∀ cd,
    diff_line (markDiffBetweenMatrices (combine SortFunc room m other).2 other) cd
    = ComDetails_String cd +:+ newline).
  { intros cd. unfold diff_line, sign_of.
    destruct (_ !! ComDetails_String cd) as [v|] eqn:E; [|done].
    by rewrite (Hzero _ _ E). }
  unfold GenerateMatrixDiff.
  change (getComMatrixHeadersByFormat FormatCSV) with
    (Ok (T := string)
       "Direction,Protocol,Port,Namespace,Service,Pod,Container,Node Role,Optional").
  cbv zeta. rewrite Hvalue. f_equal. unfold ComMatrix_String.
  rewrite (fold_left_append
             (diff_line (markDiffBetweenMatrices
                           (combine SortFunc room m other).2 other))).
  rewrite (fold_left_append (λ cd, ComDetails_String cd +:+ newline)).
  f_equal. apply foldr_ext; [|done..]. intros cd rest. by rewrite Hline.
Qed.

Lemma GenerateMatrixDiff_same_witness :
  let m := {| Matrix := [cd_sshd; cd_api; cd_dns] |} in
  let other := {| Matrix := [cd_dns; cd_sshd; cd_api] |} in
  SortFunc_contract insertionSortCmpFunc
  ∧ Matrix other ≡ₚ Matrix m
  ∧ GenerateMatrixDiff insertionSortCmpFunc 2 m other
    = Ok (report_header +:+ ComMatrix_String (sort insertionSortCmpFunc m)).
Proof.
  intros m other.
  assert (Hsame : Matrix other ≡ₚ Matrix m).
  { exact (Permutation_cons_append [cd_sshd; cd_api] cd_dns). }
  exact (conj insertionSortCmpFunc_contract (conj Hsame
           (GenerateMatrixDiff_same insertionSortCmpFunc 2 m other
              insertionSortCmpFunc_contract Hsame))).
Defined.

(** X15: how the marks of the report relate to [Diff]. On matrices whose
    records have comma-free text, and when [combine] leaves the receiver its
    records, a record of the combined matrix gets a plus exactly when it is
    in [m.Diff(other)], and a minus exactly when it is in [other.Diff(m)]
    and its service is not rpc.statd. *)
Theorem diff_marks_Diff (SortFunc : SortFunc_type) (room : nat)
    (m other : ComMatrix) (cd : ComDetails) :
  SortFunc_contract SortFunc →
  Matrix (Diff other m) = [] ∨ (room < length (Matrix (Diff other m)))%nat →
  Forall (λ x, comma_free x = true) (Matrix m) →
  Forall (λ x, comma_free x = true) (Matrix other) →
  cd ∈ Matrix (combine SortFunc room m other).1 →
  (diff_mark SortFunc room m other cd = Some Plus ↔ cd ∈ Matrix (Diff m other))
  ∧ (diff_mark SortFunc room m other cd = Some Minus
     ↔ cd ∈ Matrix (Diff other m) ∧ Service cd ≠ "rpc.statd").
Proof.
  intros Hok Hkept Hm Hother Hcd. rewrite !Diff_filter in *.
  rewrite !list_elem_of_filter.
  apply (combine_elem SortFunc Hok) in Hcd.
  assert (Hcd_text : comma_free cd = true).
  { rewrite Forall_forall in Hm, Hother. destruct Hcd as [?|[? _]]; auto. }
  unfold diff_mark. rewrite diff_sign_cases by done.
  destruct Hcd as [Hcd|[Hcd Hfresh]].
  - pose proof (Contains_elem m cd Hcd) as Hc.
    rewrite decide_False by (intros (_ & _ & ?); congruence).
    rewrite decide_True by done.
    destruct (Contains other cd); simpl; intuition congruence.
  - assert (cd ∉ Matrix m) by (intros ?%Contains_elem; congruence).
    destruct (decide (Service cd = "rpc.statd")) as [Hsvc|Hsvc].
    + rewrite decide_False by tauto. rewrite decide_False by done. simpl.
      intuition congruence.
    + rewrite decide_True by done. simpl. intuition congruence.
Qed.

Lemma diff_marks_Diff_witness :
  let m := {| Matrix := [cd_sshd; cd_api] |} in
  let other := {| Matrix := [cd_sshd; cd_http; cd_statd] |} in
  SortFunc_contract insertionSortCmpFunc
  ∧ (Matrix (Diff other m) = [] ∨ (0 < length (Matrix (Diff other m)))%nat)
  ∧ Forall (λ x, comma_free x = true) (Matrix m)
  ∧ Forall (λ x, comma_free x = true) (Matrix other)
  ∧ cd_api ∈ Matrix (combine insertionSortCmpFunc 0 m other).1
  ∧ (diff_mark insertionSortCmpFunc 0 m other cd_api = Some Plus
     ↔ cd_api ∈ Matrix (Diff m other))
  ∧ (diff_mark insertionSortCmpFunc 0 m other cd_api = Some Minus
     ↔ cd_api ∈ Matrix (Diff other m) ∧ Service cd_api ≠ "rpc.statd").
Proof.
  intros m other.
  assert (Hkept : Matrix (Diff other m) = []
                  ∨ (0 < length (Matrix (Diff other m)))%nat)
    by (right; vm_compute; lia).
  assert (Hm : Forall (λ x, comma_free x = true) (Matrix m))
    by repeat constructor.
  assert (Hother : Forall (λ x, comma_free x = true) (Matrix other))
    by repeat constructor.
  assert (Hcd : cd_api ∈ Matrix (combine insertionSortCmpFunc 0 m other).1).
  { vm_compute. do 2 right. left. }
  exact (conj insertionSortCmpFunc_contract (conj Hkept (conj Hm (conj Hother
           (conj Hcd
              (diff_marks_Diff insertionSortCmpFunc 0 m other cd_api
                 insertionSortCmpFunc_contract Hkept Hm Hother Hcd)))))).
Defined.

(** X16: when the records of the second matrix have comma-free text, no
    record of it whose service is rpc.statd gets a minus, whatever the first
    matrix holds and whatever capacity its slice has. *)
Theorem statd_comma_free_never_minus (SortFunc : SortFunc_type) (room : nat)
    (m other : ComMatrix) (cd : ComDetails) :
  Forall (λ x, comma_free x = true) (Matrix other) →
  cd ∈ Matrix other → Service cd = "rpc.statd" →
  diff_mark SortFunc room m other cd ≠ Some Minus.
Proof. apply statd_never_minus. Qed.

Lemma statd_comma_free_never_minus_witness :
  let m := {| Matrix := [cd_api] |} in
  let other := {| Matrix := [cd_sshd; cd_statd] |} in
  Forall (λ x, comma_free x = true) (Matrix other)
  ∧ cd_statd ∈ Matrix other ∧ Service cd_statd = "rpc.statd"
  ∧ diff_mark insertionSortCmpFunc 1 m other cd_statd ≠ Some Minus.
Proof.
  intros m other.
  assert (Hother : Forall (λ x, comma_free x = true) (Matrix other))
    by repeat constructor.
  assert (Hcd : cd_statd ∈ Matrix other) by (right; left).
  exact (conj Hother (conj Hcd (conj eq_refl
           (statd_comma_free_never_minus insertionSortCmpFunc 1 m other cd_statd
              Hother Hcd eq_refl)))).
Defined.

(** X17: [getComMatrixHeadersByFormat] succeeds exactly for the three tag
    keys the fields of [ComDetails] carry - json, yaml and csv - and then
    joins the nine names of that key with commas; for csv these are the
    column names of the report header. Any other key, the nft format tag
    among them, is an error. *)
Theorem getComMatrixHeadersByFormat_keys (format : string) :
  ((∃ names, getComMatrixHeadersByFormat format = Ok names)
   ↔ format = "json" ∨ format = "yaml" ∨ format = "csv")
  ∧ getComMatrixHeadersByFormat FormatCSV
    = Ok "Direction,Protocol,Port,Namespace,Service,Pod,Container,Node Role,Optional"
  ∧ getComMatrixHeadersByFormat FormatJSON
    = Ok "direction,protocol,port,namespace,service,pod,container,nodeRole,optional"
  ∧ ∃ msg, getComMatrixHeadersByFormat FormatNFT = Err msg.
Proof.
  split; [|split; [done|split; [done|by eexists]]].
  destruct (decide (format = "json")) as [->|Hj]; [split; eauto|].
  destruct (decide (format = "yaml")) as [->|Hy]; [split; eauto|].
  destruct (decide (format = "csv")) as [->|Hc]; [split; eauto|].
  split; [|tauto]. intros [names Hnames]. exfalso.
  unfold getComMatrixHeadersByFormat, ComDetails_tags, Tag_Get in Hnames.
  simpl in Hnames. rewrite !decide_False in Hnames by congruence.
  simpl in Hnames. done.
Qed.

(** ** [SeparateMatrixByRole] *)

Lemma SeparateMatrixByRole_fold (l : list ComDetails) (st : ComMatrix * ComMatrix) :
  fold_left SeparateMatrixByRole_step l st
  = ({| Matrix := Matrix st.1 ++ filter (λ e, NodeRole e = "master") l |},
     {| Matrix := Matrix st.2 ++ filter (λ e, NodeRole e = "worker") l |}).
Proof.
  revert st. induction l as [|entry l IH]; intros [[a] [b]]; simpl.
  - by rewrite !app_nil_r.
  - rewrite IH, !filter_cons. unfold SeparateMatrixByRole_step. simpl.
    repeat case_bool_decide.
    + rewrite decide_True, decide_False by congruence. simpl.
      by rewrite <- app_assoc.
    + rewrite decide_False, decide_True by done. simpl.
      by rewrite <- app_assoc.
    + by rewrite !decide_False by done.
Qed.

Lemma SeparateMatrixByRole_filter (m : ComMatrix) :
  Matrix (SeparateMatrixByRole m).1 = filter (λ e, NodeRole e = "master") (Matrix m)
  ∧ Matrix (SeparateMatrixByRole m).2
    = filter (λ e, NodeRole e = "worker") (Matrix m).
Proof. unfold SeparateMatrixByRole. by rewrite SeparateMatrixByRole_fold. Qed.

(** X18: [SeparateMatrixByRole] puts a record into the master matrix
    exactly when its role is the text master, into the worker matrix exactly
    when it is the text worker, and drops every other record; both matrices
    keep the order of the input, and together they have no more records
    than it. *)
Theorem SeparateMatrixByRole_parts (m : ComMatrix) :
  (∀ e, e ∈ Matrix (SeparateMatrixByRole m).1
        ↔ e ∈ Matrix m ∧ NodeRole e = "master")
  ∧ (∀ e, e ∈ Matrix (SeparateMatrixByRole m).2
          ↔ e ∈ Matrix m ∧ NodeRole e = "worker")
  ∧ Matrix (SeparateMatrixByRole m).1 `sublist_of` Matrix m
  ∧ Matrix (SeparateMatrixByRole m).2 `sublist_of` Matrix m
  ∧ (length (Matrix (SeparateMatrixByRole m).1)
     + length (Matrix (SeparateMatrixByRole m).2) ≤ length (Matrix m))%nat.
Proof.
  destruct (SeparateMatrixByRole_filter m) as [-> ->].
  split; [intros e; rewrite list_elem_of_filter; tauto|].
  split; [intros e; rewrite list_elem_of_filter; tauto|].
  split; [apply sublist_filter|]. split; [apply sublist_filter|].
  induction (Matrix m) as [|e l IH]; [done|]. rewrite !filter_cons.
  repeat case_decide; simpl; try lia. congruence.
Qed.

Lemma filter_StronglySorted {A : Type} (R : A → A → Prop) (P : A → Prop)
    `{!∀ x, Decision (P x)} (l : list A) :
  StronglySorted R l → StronglySorted R (filter P l).
Proof.
  induction 1 as [|x l Hs IH Hx]; [constructor|]. rewrite filter_cons.
  case_decide; [|done]. constructor; [done|].
  rewrite Forall_forall in *. intros y [_ Hy]%list_elem_of_filter. auto.
Qed.

Lemma worker_not_before_master : ¬ bytes_lt "worker" "master".
Proof. by intros ?%string_compare_lt. Qed.

(** X19: on a matrix in order whose records all have the role master or
    worker - such as a matrix of those roles after [CleanComDetails] -
    the master matrix followed by the worker matrix is the matrix itself,
    and both parts are in order. *)
Theorem SeparateMatrixByRole_sorted (m : ComMatrix) :
  Sorted key_le (Matrix m) →
  Forall (λ e, NodeRole e = "master" ∨ NodeRole e = "worker") (Matrix m) →
  Matrix (SeparateMatrixByRole m).1 ++ Matrix (SeparateMatrixByRole m).2
  = Matrix m
  ∧ StronglySorted key_le (Matrix (SeparateMatrixByRole m).1)
  ∧ StronglySorted key_le (Matrix (SeparateMatrixByRole m).2).
Proof.
  intros Hsorted Hroles.
  assert (Transitive key_le) by (intros ???; apply key_le_trans).
  apply Sorted_StronglySorted in Hsorted; [|done].
  destruct (SeparateMatrixByRole_filter m) as [-> ->].
  split; [|split; by apply filter_StronglySorted].
  induction Hsorted as [|e l Hs IH He]; [done|].
  apply Forall_cons in Hroles as [He_role Hroles]. specialize (IH Hroles).
  rewrite !filter_cons. destruct He_role as [Hrole|Hrole].
  - rewrite decide_True, decide_False by congruence. simpl. by rewrite IH.
  - rewrite decide_False, decide_True by congruence.
    assert (Hnone : filter (λ e, NodeRole e = "master") l = []).
    { apply filter_nil_Forall. rewrite Forall_forall in *.
      intros y Hy Hmaster. destruct (He y Hy) as [Hlt|[Heq _]].
      - rewrite Hrole, Hmaster in Hlt. by apply worker_not_before_master.
      - congruence. }
    rewrite Hnone in *. simpl in *. by rewrite IH.
Qed.

Lemma SeparateMatrixByRole_sorted_witness :
  let m := sort insertionSortCmpFunc
             {| Matrix := [flow "worker" "TCP" 10250 "kubelet"; cd_dns; cd_sshd] |} in
  Sorted key_le (Matrix m)
  ∧ Forall (λ e, NodeRole e = "master" ∨ NodeRole e = "worker") (Matrix m)
  ∧ Matrix (SeparateMatrixByRole m).1 ++ Matrix (SeparateMatrixByRole m).2
    = Matrix m
  ∧ StronglySorted key_le (Matrix (SeparateMatrixByRole m).1)
  ∧ StronglySorted key_le (Matrix (SeparateMatrixByRole m).2).
Proof.
  intros m.
  assert (Hsorted : Sorted key_le (Matrix m))
    by apply (sort_Sorted insertionSortCmpFunc insertionSortCmpFunc_contract).
  assert (Hroles : Forall (λ e, NodeRole e = "master" ∨ NodeRole e = "worker")
                     (Matrix m)).
  { vm_compute. repeat (apply Forall_cons_2; [(by left) || (by right)|]).
    apply Forall_nil_2. }
  exact (conj Hsorted (conj Hroles (SeparateMatrixByRole_sorted m Hsorted Hroles))).
Defined.

(** ** [ToNFTables], further *)

Lemma ToNFTables_rules (m : ComMatrix) :
  ToNFTables m
  = Ok (nft_rules (Join (ports_of "TCP" (Matrix m)) ", ")
                  (Join (ports_of "UDP" (Matrix m)) ", ")).
Proof. unfold ToNFTables. by rewrite ToNFTables_fold. Qed.

Lemma ports_of_flows (protocol : string) (l1 l2 : list ComDetails) :
  (λ cd, (Protocol cd, Port cd)) <$> l1 = (λ cd, (Protocol cd, Port cd)) <$> l2 →
  ports_of protocol l1 = ports_of protocol l2.
Proof.
  unfold ports_of. revert l2.
  induction l1 as [|a l1 IH]; intros [|b l2] Heq; try done.
  simpl in Heq. injection Heq as Hp Hport Hrest.
  rewrite !filter_cons, Hp.
  case_decide; [rewrite !fmap_cons, Hport; f_equal|]; by apply IH.
Qed.

(** X20: the rules of [ToNFTables] depend only on the protocols and ports
    of the records, in their order: two matrices that agree on these give
    the same rules, whatever the direction, the role or the other fields of
    their records. *)
Theorem ToNFTables_protocol_port (m1 m2 : ComMatrix) :
  (λ cd, (Protocol cd, Port cd)) <$> Matrix m1
  = (λ cd, (Protocol cd, Port cd)) <$> Matrix m2 →
  ToNFTables m1 = ToNFTables m2.
Proof.
  intros Heq. rewrite !ToNFTables_rules.
  by rewrite !(ports_of_flows _ _ _ Heq).
Qed.

Lemma ToNFTables_protocol_port_witness :
  let m1 := {| Matrix := [cd_http; cd_dns] |} in
  let m2 := {| Matrix := [flow "worker" "TCP" 80 "proxy";
                          {| Direction := "Egress"; Protocol := "UDP"; Port := 53;
                             Namespace := "other"; Service := "resolver";
                             Pod := "p"; Container := "c"; NodeRole := "master";
                             Optional := true |}] |} in
  (λ cd, (Protocol cd, Port cd)) <$> Matrix m1
  = (λ cd, (Protocol cd, Port cd)) <$> Matrix m2
  ∧ ToNFTables m1 = ToNFTables m2.
Proof.
  intros m1 m2.
  assert (Heq : (λ cd, (Protocol cd, Port cd)) <$> Matrix m1
                = (λ cd, (Protocol cd, Port cd)) <$> Matrix m2) by reflexivity.
  exact (conj Heq (ToNFTables_protocol_port m1 m2 Heq)).
Defined.

Lemma prefix_app (p v : string) : String.prefix p (p +:+ v) = true.
Proof.
  induction p as [|a p IH]; [by destruct v|].
  change (String.prefix (String a p) (String a (p +:+ v)) = true). simpl.
  by destruct (ascii_dec a a).
Qed.

Lemma strings_Contains_prefix (s p : string) :
  String.prefix p s = true → strings_Contains s p = true.
Proof. intros Hp. destruct s; cbn [strings_Contains]; by rewrite Hp. Qed.

Lemma strings_Contains_app (u p v : string) :
  strings_Contains (u +:+ p +:+ v) p = true.
Proof.
  induction u as [|a u IH].
  - change (strings_Contains (p +:+ v) p = true).
    apply strings_Contains_prefix, prefix_app.
  - change (strings_Contains (String a (u +:+ p +:+ v)) p = true). simpl.
    rewrite IH. apply orb_true_r.
Qed.

Lemma string_app_nil_r (s : string) : s +:+ EmptyString = s.
Proof.
  induction s as [|c s IH]; [done|].
  change (String c (s +:+ EmptyString) = String c s). by rewrite IH.
Qed.

Lemma prefix_split (p s : string) :
  String.prefix p s = true → ∃ v, s = p +:+ v.
Proof.
  revert s. induction p as [|b p IH]; intros s Hp; [by exists s|].
  destruct s as [|c s]; [done|]. simpl in Hp.
  destruct (ascii_dec b c) as [->|]; [|done].
  destruct (IH s Hp) as [v ->]. by exists v.
Qed.

Lemma strings_Contains_split (s t : string) :
  strings_Contains s t = true → ∃ u v, s = u +:+ t +:+ v.
Proof.
  induction s as [|a s IH]; cbn [strings_Contains].
  - rewrite orb_false_r. intros [v Hv]%prefix_split. by exists EmptyString, v.
  - intros [[v Hv]%prefix_split|Hc]%orb_true_iff.
    + by exists EmptyString, v.
    + destruct (IH Hc) as (u & v & ->). by exists (String a u), v.
Qed.

Lemma strings_Contains_trans (s t p : string) :
  strings_Contains s t = true → strings_Contains t p = true →
  strings_Contains s p = true.
Proof.
  intros (u & v & ->)%strings_Contains_split (u' & v' & ->)%strings_Contains_split.
  rewrite !string_app_assoc, <- (string_app_assoc u u').
  apply strings_Contains_app.
Qed.

Lemma Join_Contains (l1 l2 : list string) (x sep : string) :
  strings_Contains (Join (l1 ++ x :: l2) sep) x = true.
Proof.
  induction l1 as [|a l1 IH].
  - destruct l2 as [|b l2].
    + change (strings_Contains x x = true).
      rewrite <- (string_app_nil_r x) at 1.
      apply (strings_Contains_app EmptyString).
    + apply (strings_Contains_app EmptyString x (sep +:+ Join (b :: l2) sep)).
  - change (strings_Contains (Join (a :: (l1 ++ x :: l2)) sep) x = true).
    destruct (l1 ++ x :: l2) as [|b l] eqn:Hl; [by destruct l1|].
    change (strings_Contains (a +:+ sep +:+ Join (b :: l) sep) x = true).
    apply (strings_Contains_trans _ (Join (b :: l) sep)); [|done].
    rewrite <- string_app_assoc.
    rewrite <- (string_app_nil_r (Join (b :: l) sep)) at 1.
    apply strings_Contains_app.
Qed.

Lemma strings_Contains_refl (s : string) : strings_Contains s s = true.
Proof.
  rewrite <- (string_app_nil_r s) at 1. apply (strings_Contains_app EmptyString).
Qed.

Lemma indent_Contains (n : nat) (line : string) :
  strings_Contains (indent n line) line = true.
Proof.
  induction n as [|n IH]; [apply strings_Contains_refl|].
  apply (strings_Contains_trans _ (indent n line)); [|done].
  change (strings_Contains (tab +:+ indent n line) (indent n line) = true).
  rewrite <- (string_app_nil_r (indent n line)) at 1.
  apply strings_Contains_app.
Qed.

Lemma nft_rules_lines (tcp udp : string) :
  strings_Contains (nft_rules tcp udp) ("tcp dport  { " +:+ tcp +:+ " } accept")
  = true
  ∧ strings_Contains (nft_rules tcp udp) ("udp dport { " +:+ udp +:+ " } accept")
    = true.
Proof.
  split.
  - apply (strings_Contains_trans _
             (indent 3 ("tcp dport  { " +:+ tcp +:+ " } accept")));
      [|apply indent_Contains].
    unfold nft_rules.
    match goal with
    | |- context [Join ?L _] =>
        change L
          with (take 18 L ++ indent 3 ("tcp dport  { " +:+ tcp +:+ " } accept")
                  :: drop 19 L)
    end.
    apply Join_Contains.
  - apply (strings_Contains_trans _
             (indent 3 ("udp dport { " +:+ udp +:+ " } accept")));
      [|apply indent_Contains].
    unfold nft_rules.
    match goal with
    | |- context [Join ?L _] =>
        change L
          with (take 19 L ++ indent 3 ("udp dport { " +:+ udp +:+ " } accept")
                  :: drop 20 L)
    end.
    apply Join_Contains.
Qed.

Lemma ports_of_none (protocol : string) (l : list ComDetails) :
  (∀ cd, cd ∈ l → Protocol cd ≠ protocol) → ports_of protocol l = [].
Proof.
  intros Hnone. unfold ports_of.
  assert (Hnil : filter (λ line, Protocol line = protocol) l = []).
  { apply filter_nil_Forall. apply Forall_forall. exact Hnone. }
  rewrite Hnil. reflexivity.
Qed.

Lemma ports_of_split (protocol : string) (l1 l2 : list ComDetails)
    (cd : ComDetails) :
  ports_of protocol (l1 ++ cd :: l2)
  = if decide (Protocol cd = protocol)
    then ports_of protocol l1 ++ Sprint_int (Port cd) :: ports_of protocol l2
    else ports_of protocol (l1 ++ l2).
Proof.
  unfold ports_of. rewrite !filter_app, filter_cons.
  case_decide; by rewrite ?fmap_app, ?fmap_cons.
Qed.

(** The port list of an accept line is in the rules, and so is each port
    of the list. *)
Lemma nft_rules_ports (tcp udp : list string) :
  (∀ port, port ∈ tcp →
     strings_Contains (nft_rules (Join tcp ", ") (Join udp ", ")) port = true)
  ∧ (∀ port, port ∈ udp →
       strings_Contains (nft_rules (Join tcp ", ") (Join udp ", ")) port = true).
Proof.
  split; intros port [l1 [l2 ->]]%list_elem_of_split.
  - refine (strings_Contains_trans _ _ _ (proj1 (nft_rules_lines _ _)) _).
    refine (strings_Contains_trans _ _ _ (strings_Contains_app _ _ _) _).
    apply Join_Contains.
  - refine (strings_Contains_trans _ _ _ (proj2 (nft_rules_lines _ _)) _).
    refine (strings_Contains_trans _ _ _ (strings_Contains_app _ _ _) _).
    apply Join_Contains.
Qed.

(** C10: [ToNFTables] never fails. The rules it returns hold the accept
    line of TCP with the ports, joined by a comma and a space in the order
    of the matrix, of exactly the records whose protocol is the text TCP,
    and the accept line of UDP likewise. A record whose protocol is TCP or
    UDP has its port in the rules, at its place in the list of that line;
    a record with any other protocol, a different letter case included,
    changes nothing in the rules. *)
Theorem ToNFTables_ports (m : ComMatrix) :
  ∃ rules, ToNFTables m = Ok rules
    ∧ strings_Contains rules
        ("tcp dport  { " +:+ Join (ports_of "TCP" (Matrix m)) ", " +:+ " } accept")
      = true
    ∧ strings_Contains rules
        ("udp dport { " +:+ Join (ports_of "UDP" (Matrix m)) ", " +:+ " } accept")
      = true
    ∧ (∀ l1 cd l2, Matrix m = l1 ++ cd :: l2 →
         (Protocol cd = "TCP" →
          ports_of "TCP" (Matrix m)
          = ports_of "TCP" l1 ++ Sprint_int (Port cd) :: ports_of "TCP" l2
          ∧ strings_Contains rules (Sprint_int (Port cd)) = true)
         ∧ (Protocol cd = "UDP" →
            ports_of "UDP" (Matrix m)
            = ports_of "UDP" l1 ++ Sprint_int (Port cd) :: ports_of "UDP" l2
            ∧ strings_Contains rules (Sprint_int (Port cd)) = true)
         ∧ (Protocol cd ≠ "TCP" → Protocol cd ≠ "UDP" →
            ports_of "TCP" (Matrix m) = ports_of "TCP" (l1 ++ l2)
            ∧ ports_of "UDP" (Matrix m) = ports_of "UDP" (l1 ++ l2)
            ∧ ToNFTables {| Matrix := l1 ++ l2 |} = Ok rules))
    ∧ ToNFTables {| Matrix := Matrix m ++ [cd_lowercase] |} = Ok rules.
Proof.
  exists (nft_rules (Join (ports_of "TCP" (Matrix m)) ", ")
                    (Join (ports_of "UDP" (Matrix m)) ", ")).
  split; [apply ToNFTables_rules|].
  split; [exact (proj1 (nft_rules_lines _ _))|].
  split; [exact (proj2 (nft_rules_lines _ _))|].
  split.
  - intros l1 cd l2 Hm.
    pose proof (nft_rules_ports (ports_of "TCP" (Matrix m))
                  (ports_of "UDP" (Matrix m))) as [Htcp Hudp].
    split; [|split].
    + intros Hp. assert (Hsplit := ports_of_split "TCP" l1 l2 cd).
      rewrite decide_True, <- Hm in Hsplit by done. split; [done|].
      apply Htcp. rewrite Hsplit, elem_of_app, elem_of_cons. auto.
    + intros Hp. assert (Hsplit := ports_of_split "UDP" l1 l2 cd).
      rewrite decide_True, <- Hm in Hsplit by done. split; [done|].
      apply Hudp. rewrite Hsplit, elem_of_app, elem_of_cons. auto.
    + intros Htcp' Hudp'.
      assert (Ht := ports_of_split "TCP" l1 l2 cd).
      assert (Hu := ports_of_split "UDP" l1 l2 cd).
      rewrite decide_False, <- Hm in Ht by done.
      rewrite decide_False, <- Hm in Hu by done.
      split; [done|]. split; [done|].
      rewrite ToNFTables_rules. cbn [Matrix]. by rewrite <- Ht, <- Hu.
  - rewrite ToNFTables_rules. cbn [Matrix].
    by rewrite !(ports_of_split _ _ [] cd_lowercase), !decide_False,
      !app_nil_r by done.
Qed.

(** X21: the rules of [ToNFTables] contain one accept line for TCP and one
    for UDP, each with the ports of that protocol joined by a comma and a
    space; a matrix with no record of a protocol still gets the line of
    that protocol, with an empty set of ports. *)
Theorem ToNFTables_lines (m : ComMatrix) :
  ∃ rules, ToNFTables m = Ok rules
    ∧ strings_Contains rules
        ("tcp dport  { " +:+ Join (ports_of "TCP" (Matrix m)) ", " +:+ " } accept")
      = true
    ∧ strings_Contains rules
        ("udp dport { " +:+ Join (ports_of "UDP" (Matrix m)) ", " +:+ " } accept")
      = true
    ∧ ((∀ cd, cd ∈ Matrix m → Protocol cd ≠ "TCP") →
       strings_Contains rules "tcp dport  {  } accept" = true)
    ∧ ((∀ cd, cd ∈ Matrix m → Protocol cd ≠ "UDP") →
       strings_Contains rules "udp dport {  } accept" = true).
Proof.
  exists (nft_rules (Join (ports_of "TCP" (Matrix m)) ", ")
                    (Join (ports_of "UDP" (Matrix m)) ", ")).
  split; [apply ToNFTables_rules|].
  split; [exact (proj1 (nft_rules_lines _ _))|].
  split; [exact (proj2 (nft_rules_lines _ _))|].
  split; intros Hnone; rewrite (ports_of_none _ _ Hnone).
  - exact (proj1 (nft_rules_lines EmptyString _)).
  - exact (proj2 (nft_rules_lines _ EmptyString)).
Qed.

(** ** [WriteMatrixToFileByType] *)

Section write.
Context {FS : Type}.
Variable filepath_Join : string → string → string.
Variable utilsHelpers : UtilsInterface FS.
Variable enc : Encoders.

Lemma writeMatrixToFile_print (m : ComMatrix) (fileName format destDir : string)
    (fs : FS) :
  writeMatrixToFile filepath_Join utilsHelpers enc m fileName format destDir fs
  = match print enc m format with
    | Err err => (Some err, fs)
    | Ok res =>
        WriteFile utilsHelpers
          (filepath_Join destDir (fileName +:+ "." +:+ format)) res fs
    end.
Proof. reflexivity. Qed.

(** X22: for a format other than nft, [WriteMatrixToFileByType] writes at
    most one file, named by the prefix and the format, with the whole
    matrix of every role, whatever the deployment; when printing fails - as
    it does for a tag that is not supported - it returns the error of
    [print] and writes nothing. *)
Theorem WriteMatrixToFileByType_one_file (m : ComMatrix)
    (fileNamePrefix format : string) (deployment : Z) (destDir : string) (fs : FS) :
  format ≠ FormatNFT →
  WriteMatrixToFileByType filepath_Join utilsHelpers enc m fileNamePrefix format
    deployment destDir fs
  = match print enc m format with
    | Err err => (Some err, fs)
    | Ok res =>
        WriteFile utilsHelpers
          (filepath_Join destDir (fileNamePrefix +:+ "." +:+ format)) res fs
    end
  ∧ (format ∉ supported_formats →
     WriteMatrixToFileByType filepath_Join utilsHelpers enc m fileNamePrefix format
       deployment destDir fs
     = (Some ("invalid format: " +:+ format
              +:+ ". Please specify json, csv, yaml, or nft"), fs)).
Proof.
  intros Hformat.
  assert (Heq : WriteMatrixToFileByType filepath_Join utilsHelpers enc m
                  fileNamePrefix format deployment destDir fs
                = match print enc m format with
                  | Err err => (Some err, fs)
                  | Ok res =>
                      WriteFile utilsHelpers
                        (filepath_Join destDir (fileNamePrefix +:+ "." +:+ format))
                        res fs
                  end).
  { unfold WriteMatrixToFileByType. rewrite bool_decide_eq_false_2 by done.
    rewrite writeMatrixToFile_print. destruct (print enc m format); [|done].
    by destruct (WriteFile _ _ _ _) as [[err|] fs1]. }
  split; [done|]. intros Hnot. rewrite Heq.
  by rewrite (proj2 (print_cases enc m format) Hnot).
Qed.

Lemma WriteMatrixToFileByType_nft_files (m : ComMatrix) (fileNamePrefix : string)
    (deployment : Z) (destDir : string) (fs : FS) :
  let rules role :=
    let part := filter (λ e, NodeRole e = role) (Matrix m) in
    nft_rules (Join (ports_of "TCP" part) ", ") (Join (ports_of "UDP" part) ", ") in
  let master :=
    WriteFile utilsHelpers
      (filepath_Join destDir ((fileNamePrefix +:+ "-master") +:+ ".nft"))
      (rules "master") fs in
  WriteMatrixToFileByType filepath_Join utilsHelpers enc m fileNamePrefix
    FormatNFT deployment destDir fs
  = match master.1 with
    | Some err => master
    | None =>
        if bool_decide (deployment = MNO)
        then WriteFile utilsHelpers
               (filepath_Join destDir ((fileNamePrefix +:+ "-worker") +:+ ".nft"))
               (rules "worker") master.2
        else master
    end.
Proof.
  intros rules master. unfold WriteMatrixToFileByType.
  rewrite bool_decide_eq_true_2 by done.
  destruct (SeparateMatrixByRole m) as [masterMatrix workerMatrix] eqn:Hparts.
  destruct (SeparateMatrixByRole_filter m) as [Hm Hw].
  rewrite Hparts in Hm, Hw. simpl in Hm, Hw.
  rewrite writeMatrixToFile_print.
  change (print enc masterMatrix FormatNFT) with (ToNFTables masterMatrix).
  rewrite ToNFTables_rules, Hm.
  change (WriteFile utilsHelpers
            (filepath_Join destDir ((fileNamePrefix +:+ "-master") +:+ "." +:+ FormatNFT))
            _ fs) with master.
  destruct master as [[err|] fs1]; simpl; [done|].
  case_bool_decide; [|done].
  rewrite writeMatrixToFile_print.
  change (print enc workerMatrix FormatNFT) with (ToNFTables workerMatrix).
  rewrite ToNFTables_rules, Hw.
  by destruct (WriteFile _ _ _ _) as [[err|] fs2].
Qed.


(** X23: for the format nft, [WriteMatrixToFileByType] first writes the
    rules of the records of role master to the file named by the prefix
    followed by -master; if that write fails it returns its error and
    stops; otherwise, only when the deployment is [MNO], it writes the
    rules of the records of role worker to the file named with -worker.
    Records of any other role reach no file, and any deployment value
    other than [MNO] gives the master file alone. *)
Theorem WriteMatrixToFileByType_nft (m : ComMatrix) (fileNamePrefix : string)
    (deployment : Z) (destDir : string) (fs : FS) :
  let rules role :=
    let part := filter (λ e, NodeRole e = role) (Matrix m) in
    nft_rules (Join (ports_of "TCP" part) ", ") (Join (ports_of "UDP" part) ", ") in
  let master :=
    WriteFile utilsHelpers
      (filepath_Join destDir ((fileNamePrefix +:+ "-master") +:+ ".nft"))
      (rules "master") fs in
  WriteMatrixToFileByType filepath_Join utilsHelpers enc m fileNamePrefix
    FormatNFT deployment destDir fs
  = match master.1 with
    | Some err => master
    | None =>
        if bool_decide (deployment = MNO)
        then WriteFile utilsHelpers
               (filepath_Join destDir ((fileNamePrefix +:+ "-worker") +:+ ".nft"))
               (rules "worker") master.2
        else master
    end.
Proof. apply WriteMatrixToFileByType_nft_files. Qed.

End write.

Lemma WriteMatrixToFileByType_one_file_witness :
  "toml" ≠ FormatNFT
  ∧ WriteMatrixToFileByType slash_join logging_utils silent_encoders
      {| Matrix := [cd_http] |} "commatrix" "toml" MNO "out" []
    = match print silent_encoders {| Matrix := [cd_http] |} "toml" with
      | Err err => (Some err, [])
      | Ok res =>
          WriteFile logging_utils
            (slash_join "out" ("commatrix" +:+ "." +:+ "toml")) res []
      end
  ∧ ("toml" ∉ supported_formats →
     WriteMatrixToFileByType slash_join logging_utils silent_encoders
       {| Matrix := [cd_http] |} "commatrix" "toml" MNO "out" []
     = (Some ("invalid format: " +:+ "toml"
              +:+ ". Please specify json, csv, yaml, or nft"), [])).
Proof.
  assert (Hformat : "toml" ≠ FormatNFT) by done.
  exact (conj Hformat
    (WriteMatrixToFileByType_one_file slash_join logging_utils silent_encoders
       {| Matrix := [cd_http] |} "commatrix" "toml" MNO "out" [] Hformat)).
Defined.

(** ** [GetNodeRole] *)

Section node_role.
Variable RoleLabel : string.

Lemma visits_elem (node : Node) (visited : list string) (label : string) :
  visits node visited → label ∈ visited ↔ is_Some (Labels node !! label).
Proof.
  unfold visits. intros ->. rewrite list_elem_of_fmap. split.
  - intros [[k v] [-> Hin%elem_of_map_to_list]]. by exists v.
  - intros [v Hv]. exists (label, v). split; [done|]. by apply elem_of_map_to_list.
Qed.

Lemma HasPrefix_app (x : string) :
  strings_HasPrefix (RoleLabel +:+ x) RoleLabel = true.
Proof. apply prefix_app. Qed.

Lemma TrimPrefix_restore (s : string) :
  strings_HasPrefix s RoleLabel = true →
  RoleLabel +:+ strings_TrimPrefix s RoleLabel = s.
Proof.
  unfold strings_TrimPrefix. intros Hp. rewrite Hp.
  unfold strings_HasPrefix in Hp. clear -Hp. revert s Hp.
  induction RoleLabel as [|a p IH]; intros s Hp; [done|].
  destruct s as [|b s]; [done|]. simpl in Hp.
  destruct (ascii_dec a b) as [->|]; [|done].
  change (String b (p +:+ string_drop (String.length p) s) = String b s).
  by rewrite IH.
Qed.

(** The loop over the labels, reached when none of the three well-known
    labels is present: it answers with the first visited label that carries
    the prefix. *)
Lemma GetNodeRole_scan (visited : list string) (node : Node) :
  ¬ is_Some (Labels node !! (RoleLabel +:+ "master")) →
  ¬ is_Some (Labels node !! (RoleLabel +:+ "control-plane")) →
  ¬ is_Some (Labels node !! (RoleLabel +:+ "worker")) →
  GetNodeRole RoleLabel visited node
  = match filter (λ label, strings_HasPrefix label RoleLabel = true) visited with
    | [] => Err ("unable to determine role for node " +:+ Name node)
    | label :: _ => Ok (strings_TrimPrefix label RoleLabel)
    end.
Proof.
  intros Hm Hc Hw. unfold GetNodeRole.
  rewrite !bool_decide_eq_false_2 by done.
  induction visited as [|label rest IH]; [done|]. rewrite filter_cons.
  destruct (strings_HasPrefix label RoleLabel) eqn:Hp.
  - by rewrite decide_True.
  - by rewrite decide_False.
Qed.

Lemma GetNodeRole_well_known (visited : list string) (node : Node) :
  (is_Some (Labels node !! (RoleLabel +:+ "master"))
   ∨ is_Some (Labels node !! (RoleLabel +:+ "control-plane")) →
   GetNodeRole RoleLabel visited node = Ok "master")
  ∧ (¬ is_Some (Labels node !! (RoleLabel +:+ "master")) →
     ¬ is_Some (Labels node !! (RoleLabel +:+ "control-plane")) →
     is_Some (Labels node !! (RoleLabel +:+ "worker")) →
     GetNodeRole RoleLabel visited node = Ok "worker").
Proof.
  unfold GetNodeRole. split.
  - intros [H|H]; repeat case_bool_decide; done.
  - intros Hm Hc Hw. repeat case_bool_decide; done.
Qed.

(** X24: [GetNodeRole] fails exactly when no label of the node starts with
    the role prefix, in whatever order the labels are visited; the error
    then names the node. *)
Theorem GetNodeRole_fails (visited : list string) (node : Node) :
  visits node visited →
  ((∃ msg, GetNodeRole RoleLabel visited node = Err msg)
   ↔ ∀ label, is_Some (Labels node !! label) →
              strings_HasPrefix label RoleLabel = false)
  ∧ ∀ msg, GetNodeRole RoleLabel visited node = Err msg →
           msg = "unable to determine role for node " +:+ Name node.
Proof.
  intros Hvisits.
  destruct (decide (is_Some (Labels node !! (RoleLabel +:+ "master"))
                    ∨ is_Some (Labels node !! (RoleLabel +:+ "control-plane"))
                    ∨ is_Some (Labels node !! (RoleLabel +:+ "worker"))))
    as [Hknown|Hnone].
  - assert (Hok : ∃ role, GetNodeRole RoleLabel visited node = Ok role).
    { destruct (GetNodeRole_well_known visited node) as [Hmaster Hworker].
      destruct (decide (is_Some (Labels node !! (RoleLabel +:+ "master"))));
        [eauto|].
      destruct (decide (is_Some (Labels node !! (RoleLabel +:+ "control-plane"))));
        [eauto|].
      exists "worker". apply Hworker; tauto. }
    destruct Hok as [role Hok]. rewrite Hok. split; [|done]. split.
    + by intros [msg ?].
    + intros Hall. exfalso.
      destruct Hknown as [H|[H|H]]; apply Hall in H;
        by rewrite HasPrefix_app in H.
  - rewrite GetNodeRole_scan by tauto.
    destruct (filter _ visited) as [|label rest] eqn:Hfilter.
    + split; [|by intros msg [= <-]]. split; [|eauto].
      intros _ label Hlabel%(visits_elem _ _ _ Hvisits).
      apply filter_nil_Forall in Hfilter. rewrite Forall_forall in Hfilter.
      specialize (Hfilter label Hlabel). by destruct (strings_HasPrefix _ _).
    + split; [|done]. split; [by intros [msg ?]|]. intros Hall. exfalso.
      assert (Hin : label ∈ filter (λ label, strings_HasPrefix label RoleLabel = true)
                      visited) by (rewrite Hfilter; left).
      apply list_elem_of_filter in Hin as [Hp Hin].
      apply (visits_elem _ _ _ Hvisits), Hall in Hin. congruence.
Qed.

(** X25: a role that [GetNodeRole] returns is backed by a label of the node:
    the label made of the prefix and the role itself, or, for master, the
    control-plane label. *)
Theorem GetNodeRole_backed (visited : list string) (node : Node) (role : string) :
  visits node visited →
  GetNodeRole RoleLabel visited node = Ok role →
  is_Some (Labels node !! (RoleLabel +:+ role))
  ∨ (role = "master" ∧ is_Some (Labels node !! (RoleLabel +:+ "control-plane"))).
Proof.
  intros Hvisits Hrole.
  destruct (GetNodeRole_well_known visited node) as [Hmaster Hworker].
  destruct (decide (is_Some (Labels node !! (RoleLabel +:+ "master")))) as [Hm|Hm].
  { rewrite Hmaster in Hrole by tauto. injection Hrole as <-. by left. }
  destruct (decide (is_Some (Labels node !! (RoleLabel +:+ "control-plane"))))
    as [Hc|Hc].
  { rewrite Hmaster in Hrole by tauto. injection Hrole as <-. by right. }
  destruct (decide (is_Some (Labels node !! (RoleLabel +:+ "worker")))) as [Hw|Hw].
  { rewrite Hworker in Hrole by done. injection Hrole as <-. by left. }
  rewrite GetNodeRole_scan in Hrole by done.
  destruct (filter _ visited) as [|label rest] eqn:Hfilter; [done|].
  injection Hrole as <-. left.
  assert (Hin : label ∈ filter (λ label, strings_HasPrefix label RoleLabel = true)
                  visited) by (rewrite Hfilter; left).
  apply list_elem_of_filter in Hin as [Hp Hin].
  rewrite (TrimPrefix_restore _ Hp). by apply (visits_elem _ _ _ Hvisits).
Qed.

Lemma Permutation_all_equal {A : Type} (l k : list A) :
  l ≡ₚ k → (∀ x y, x ∈ l → y ∈ l → x = y) → l = k.
Proof.
  revert k. induction l as [|x l IH]; intros k Hperm Hall.
  - by apply Permutation_nil in Hperm.
  - destruct k as [|y k]; [by apply Permutation_nil_r in Hperm|].
    assert (y = x) as ->.
    { apply Hall; [|left]. rewrite Hperm. left. }
    f_equal. apply IH; [by apply Permutation_cons_inv in Hperm|].
    intros a b Ha Hb. apply Hall; by right.
Qed.

(** X26: the role [GetNodeRole] returns is the same for every order in
    which the labels are visited exactly when one of the three well-known
    labels is present or at most one label carries the prefix; otherwise
    the order of visit, which the language leaves open, decides the role. *)
Theorem GetNodeRole_order (node : Node) :
  (∀ visited1 visited2, visits node visited1 → visits node visited2 →
     GetNodeRole RoleLabel visited1 node = GetNodeRole RoleLabel visited2 node)
  ↔ (is_Some (Labels node !! (RoleLabel +:+ "master"))
     ∨ is_Some (Labels node !! (RoleLabel +:+ "control-plane"))
     ∨ is_Some (Labels node !! (RoleLabel +:+ "worker")))
    ∨ (∀ label1 label2,
         is_Some (Labels node !! label1) → is_Some (Labels node !! label2) →
         strings_HasPrefix label1 RoleLabel = true →
         strings_HasPrefix label2 RoleLabel = true → label1 = label2).
Proof.
  destruct (decide (is_Some (Labels node !! (RoleLabel +:+ "master"))
                    ∨ is_Some (Labels node !! (RoleLabel +:+ "control-plane"))
                    ∨ is_Some (Labels node !! (RoleLabel +:+ "worker"))))
    as [Hknown|Hnone].
  - split; [by left|]. intros _ visited1 visited2 _ _.
    destruct (GetNodeRole_well_known visited1 node) as [Hm1 Hw1].
    destruct (GetNodeRole_well_known visited2 node) as [Hm2 Hw2].
    destruct (decide (is_Some (Labels node !! (RoleLabel +:+ "master"))));
      [by rewrite Hm1, Hm2 by tauto|].
    destruct (decide (is_Some (Labels node !! (RoleLabel +:+ "control-plane"))));
      [by rewrite Hm1, Hm2 by tauto|].
    by rewrite Hw1, Hw2 by tauto.
  - assert (Hscan : ∀ visited, GetNodeRole RoleLabel visited node
              = match filter (λ label, strings_HasPrefix label RoleLabel = true)
                        visited with
                | [] => Err ("unable to determine role for node " +:+ Name node)
                | label :: _ => Ok (strings_TrimPrefix label RoleLabel)
                end).
    { intros visited. apply GetNodeRole_scan; tauto. }
    split.
    + intros Hsame. right. intros label1 label2 Hl1 Hl2 Hp1 Hp2.
      assert (Hfirst : ∀ label, is_Some (Labels node !! label) →
                ∃ rest, visits node (label :: rest)).
      { intros label Hlabel.
        apply (visits_elem node _ label (reflexivity _)) in Hlabel.
        apply elem_of_Permutation in Hlabel as [rest Hrest].
        exists rest. unfold visits. by rewrite Hrest. }
      destruct (Hfirst label1 Hl1) as [rest1 Hv1].
      destruct (Hfirst label2 Hl2) as [rest2 Hv2].
      specialize (Hsame _ _ Hv1 Hv2). rewrite !Hscan, !filter_cons in Hsame.
      rewrite !decide_True in Hsame by done. injection Hsame as Htrim.
      by rewrite <- (TrimPrefix_restore label1), <- (TrimPrefix_restore label2),
        Htrim.
    + intros [Hknown|Hone]; [done|]. intros visited1 visited2 Hv1 Hv2.
      rewrite !Hscan.
      replace (filter (λ label, strings_HasPrefix label RoleLabel = true) visited2)
        with (filter (λ label, strings_HasPrefix label RoleLabel = true) visited1);
        [done|].
      apply Permutation_all_equal.
      * unfold visits in Hv1, Hv2. by rewrite Hv1, Hv2.
      * intros x y [Hx Hinx]%list_elem_of_filter [Hy Hiny]%list_elem_of_filter.
        apply Hone; try done; by apply (visits_elem _ _ _ Hv1).
Qed.

End node_role.

Lemma GetNodeRole_fails_witness :
  let node := {| Name := "node-0";
                 Labels := {[ "kubernetes.io/hostname" := "node-0" ]} |} in
  visits node ["kubernetes.io/hostname"]
  ∧ ((∃ msg, GetNodeRole "node-role.kubernetes.io/" ["kubernetes.io/hostname"] node
             = Err msg)
     ↔ ∀ label, is_Some (Labels node !! label) →
                strings_HasPrefix label "node-role.kubernetes.io/" = false)
  ∧ ∀ msg, GetNodeRole "node-role.kubernetes.io/" ["kubernetes.io/hostname"] node
           = Err msg →
           msg = "unable to determine role for node " +:+ Name node.
Proof.
  intros node.
  assert (Hvisits : visits node ["kubernetes.io/hostname"]).
  { unfold visits, node. simpl. by rewrite map_to_list_singleton. }
  exact (conj Hvisits
    (GetNodeRole_fails "node-role.kubernetes.io/" ["kubernetes.io/hostname"] node
       Hvisits)).
Defined.

Lemma GetNodeRole_backed_witness :
  let node := {| Name := "node-1";
                 Labels := {[ "node-role.kubernetes.io/infra" := EmptyString ]} |} in
  visits node ["node-role.kubernetes.io/infra"]
  ∧ GetNodeRole "node-role.kubernetes.io/" ["node-role.kubernetes.io/infra"] node
    = Ok "infra"
  ∧ (is_Some (Labels node !! ("node-role.kubernetes.io/" +:+ "infra"))
     ∨ ("infra" = "master"
        ∧ is_Some (Labels node !! ("node-role.kubernetes.io/" +:+ "control-plane")))).
Proof.
  intros node.
  assert (Hvisits : visits node ["node-role.kubernetes.io/infra"]).
  { unfold visits, node. simpl. by rewrite map_to_list_singleton. }
  assert (Hrole : GetNodeRole "node-role.kubernetes.io/"
                    ["node-role.kubernetes.io/infra"] node = Ok "infra")
    by (vm_compute; reflexivity).
  exact (conj Hvisits (conj Hrole
    (GetNodeRole_backed "node-role.kubernetes.io/" ["node-role.kubernetes.io/infra"]
       node "infra" Hvisits Hrole))).
Defined.

(** X27: with the deployment that [GetDeployment] reads from a tag and a
    file system whose writes succeed, the nft export writes the master
    rules to the file with -master and then, only for the tag mno, the
    worker rules to the file with -worker; every other tag, also one
    [GetDeployment] rejects with its error value, gives the master file
    alone. *)
Theorem GetDeployment_nft_files (filepath_Join : string → string → string)
    (enc : Encoders) (m : ComMatrix) (fileNamePrefix deploymentStr destDir : string)
    (log : list (string * string)) :
  let rules role :=
    let part := filter (λ e, NodeRole e = role) (Matrix m) in
    nft_rules (Join (ports_of "TCP" part) ", ") (Join (ports_of "UDP" part) ", ") in
  WriteMatrixToFileByType filepath_Join logging_utils enc m fileNamePrefix
    FormatNFT (GetDeployment deploymentStr).1 destDir log
  = (None,
     log ++ (filepath_Join destDir ((fileNamePrefix +:+ "-master") +:+ ".nft"),
             rules "master")
         :: (if bool_decide (deploymentStr = "mno")
             then [(filepath_Join destDir ((fileNamePrefix +:+ "-worker") +:+ ".nft"),
                    rules "worker")]
             else []))
  ∧ ((GetDeployment deploymentStr).2 = None
     ↔ deploymentStr = "mno" ∨ deploymentStr = "sno")
  ∧ ((GetDeployment deploymentStr).2 ≠ None → (GetDeployment deploymentStr).1 = -1).
Proof.
  intros rules. split.
  - refine (eq_trans
      (WriteMatrixToFileByType_nft_files filepath_Join logging_utils enc m
         fileNamePrefix (GetDeployment deploymentStr).1 destDir log) _).
    cbn [fst snd WriteFile logging_utils]. unfold GetDeployment.
    repeat case_bool_decide; cbn [fst snd]; try done.
    by rewrite <- app_assoc.
  - unfold GetDeployment.
    repeat case_bool_decide; cbn [fst snd]; split; try done; intuition congruence.
Qed.
